(** * Remote-desktop signaling server: peer registry, handshake broker and
      grace-period reclamation

    A shallow embedding of the Socket.IO handlers of the signaling server
    (registration, request-connection, connection-response, end-session,
    relay events and the disconnect timer) as pure functions over an explicit
    server state, with the messages pushed to sockets collected in an output
    list. The cache of ICE servers, the peer count of the status endpoint and
    the disconnect handler of the first version ([server.js]) are embedded
    beside them.

    Conventions.
    - JavaScript strings are [string]s; only code units below 256 occur.
    - The two [Map]s ([peers], [pendingConnections]) iterate in insertion
      order and the handlers depend on that order (first match wins), so they
      are association lists in insertion order.
    - [null] and [undefined] are both [None]: the handlers only ever test such
      values for truthiness or use them as a [Map] key that is not there.
    - [Math.random] and [uuidv4] are oracles: the values they return during a
      handler run are part of the event. *)

From Stdlib Require Import String Ascii NArith List Bool Lia.
From stdpp Require Import base option list strings gmap.

Set Default Proof Using "Type".
Local Open Scope string_scope.

(** ** Strings *)

Module JsString.

(** [s.replace(/-/g, '')] *)
Fixpoint stripHyphens (s : string) : string :=
  match s with
  | EmptyString => EmptyString
  | String c r =>
      if Ascii.eqb c "-" then stripHyphens r else String c (stripHyphens r)
  end.

(** [s.slice(a, b)] for [0 <= a <= b] *)
Definition slice (a b : nat) (s : string) : string := substring a (b - a) s.

(** Truthiness of a string value that may be [null]/[undefined]. *)
Definition truthy (v : option string) : bool :=
  match v with
  | Some s => negb (String.eqb s "")
  | None => false
  end.

(** [v || d] *)
Definition orElse (v : option string) (d : string) : string :=
  match v with
  | Some s => if String.eqb s "" then d else s
  | None => d
  end.

Definition digitChar (d : N) : ascii := ascii_of_N (48 + d).

(** Decimal digits of [n], most significant first, in front of [acc]. *)
Fixpoint digitsOf (fuel : nat) (n : N) (acc : string) : string :=
  match fuel with
  | O => acc
  | S f =>
      let acc' := String (digitChar (n mod 10)) acc in
      if (n / 10 =? 0)%N then acc' else digitsOf f (n / 10) acc'
  end.

(** [n.toString()] for a non-negative integer [n]. A number has at most
    [log2 n + 1] decimal digits, which bounds the recursion. *)
Definition toString (n : N) : string :=
  digitsOf (S (N.to_nat (N.log2 n))) n "".

Definition isDigit (c : ascii) : bool :=
  (48 <=? N_of_ascii c)%N && (N_of_ascii c <=? 57)%N.

Fixpoint allDigits (s : string) : bool :=
  match s with
  | EmptyString => true
  | String c r => isDigit c && allDigits r
  end.

End JsString.

Import JsString.

(** ** Connection identifiers *)

(** The template [`${s.slice(0, 3)}-${s.slice(3, 6)}-${s.slice(6, 9)}`],
    used by [generateConnectionId] and by [register] for a preferred id. *)
Definition formatId (s : string) : string :=
  slice 0 3 s ++ "-" ++ slice 3 6 s ++ "-" ++ slice 6 9 s.

(** [generateConnectionId], as a function of the integer
    [Math.floor(100000000 + Math.random() * 900000000)] drawn in it. *)
Definition generateConnectionId (draw : N) : string :=
  let id := toString draw in
  formatId id.

(** What [Math.floor(100000000 + Math.random() * 900000000)] can be, since
    [0 <= Math.random() < 1]. *)
Definition drawInRange (draw : N) : Prop :=
  (100000000 <= draw <= 999999999)%N.

(** Three groups of three digits joined by hyphens. *)
Definition threeDigitGroups (s : string) : Prop :=
  exists a b c : string,
    s = a ++ "-" ++ b ++ "-" ++ c /\
    String.length a = 3 /\ String.length b = 3 /\ String.length c = 3 /\
    allDigits a = true /\ allDigits b = true /\ allDigits c = true.

(** Shape of every registry key: nine hyphen-free characters in groups. *)
Definition isGrouped (k : string) : Prop :=
  String.length (stripHyphens k) = 9 /\ formatId (stripHyphens k) = k.


Local Close Scope string_scope.

(** ** Insertion-ordered maps with string keys (JavaScript [Map]) *)

Module JsMap.
Section WithValue.
Context {V : Type}.

(** [m.get(k)] *)
Fixpoint get (m : list (string * V)) (k : string) : option V :=
  match m with
  | [] => None
  | (k', v) :: r => if String.eqb k' k then Some v else get r k
  end.

(** [m.has(k)] *)
Definition has (m : list (string * V)) (k : string) : bool :=
  match get m k with Some _ => true | None => false end.

(** [m.set(k, v)]: an existing key keeps its position, a new one goes
    last. *)
Fixpoint set (m : list (string * V)) (k : string) (v : V) : list (string * V) :=
  match m with
  | [] => [(k, v)]
  | (k', v') :: r =>
      if String.eqb k' k then (k, v) :: r else (k', v') :: set r k v
  end.

(** [m.delete(k)] *)
Fixpoint delete (m : list (string * V)) (k : string) : list (string * V) :=
  match m with
  | [] => []
  | (k', v) :: r =>
      if String.eqb k' k then delete r k else (k', v) :: delete r k
  end.

(** Assignment to fields of the object stored under [k]: the object
    [m.get(k)] is changed in place, the map keeps its keys and order. *)
Fixpoint adjust (f : V -> V) (m : list (string * V)) (k : string) : list (string * V) :=
  match m with
  | [] => []
  | (k', v) :: r =>
      if String.eqb k' k then (k', f v) :: r else (k', v) :: adjust f r k
  end.

(** [Array.from(m.values())] *)
Definition values (m : list (string * V)) : list V := m.*2.

Definition keys (m : list (string * V)) : list string := m.*1.
End WithValue.
End JsMap.

(** ** Data model *)

Inductive Status := Available | Busy.

(** An entry of [peers]. The [socket] field is the socket whose [id] is
    [socketId]; a message emitted on it is recorded under that id. *)
Record Peer := mkPeer {
  socketId : string;
  status : Status;
  connectedTo : option string
}.

(** An entry of [pendingConnections]. [viewerConnectionId] is the
    requester's [socket.connectionId] at request time, which is [undefined]
    for a socket that has not registered. *)
Record Request := mkRequest {
  viewerSocketId : string;
  viewerConnectionId : option string;
  hostSocketId : string;
  hostConnectionId : string
}.

(** The relay-only events, which look the target up and forward. *)
Inductive RelayKind :=
  | HostReady | RequestCamera | CameraResponse | CameraReady
  | WebrtcOffer | WebrtcAnswer | WebrtcIceCandidate.

(** Messages emitted on a socket. *)
Inductive Message :=
  | ConnectionRequestMsg (requestId : string) (viewerId : option string)
      (viewerName : string) (password : option string)
  | ConnectionAccepted (hostId : string)
  | ConnectionRejected (hostId : string)
  | ConnectionRejectedError (error : string)
  | PeerDisconnected (peerId : string)
  | SessionEnded (fromId : option string)
  | Relayed (kind : RelayKind) (fromId : option string).

(** The argument handed to the acknowledgement callback of [register] and
    [request-connection], when the client supplied one. The [iceServers]
    list of the register reply comes from the credential provider and is
    left out. *)
Inductive Reply :=
  | Registered (connectionId : string)
  | Requested (requestId : string)
  | Failed (error : string).

Definition PeerNotFound : string := "Peer not found or offline".
Definition PeerBusy : string := "Peer is busy with another session".
Definition PeerDisconnectedReason : string := "Peer disconnected".

(** The server: the two maps, the [connectionId] property of each socket
    that has one, and the grace-period timers that are scheduled, each with
    the identifier and the socket id it captured. *)
Record Server := mkServer {
  peers : list (string * Peer);
  pendingConnections : list (string * Request);
  connectionIdOf : gmap string string;
  graceTimers : list (string * string)
}.

Definition initial : Server :=
  {| peers := []; pendingConnections := []; connectionIdOf := ∅; graceTimers := [] |}.

Definition withPeers (st : Server) (ps : list (string * Peer)) : Server :=
  {| peers := ps; pendingConnections := pendingConnections st;
     connectionIdOf := connectionIdOf st; graceTimers := graceTimers st |}.

Definition withPending (st : Server) (rs : list (string * Request)) : Server :=
  {| peers := peers st; pendingConnections := rs;
     connectionIdOf := connectionIdOf st; graceTimers := graceTimers st |}.

(** What a handler run does: the new state, the messages emitted on sockets
    (socket id and message, in order) and the acknowledgement, if any. *)
Record Outcome := mkOutcome {
  next : Server;
  emitted : list (string * Message);
  reply : option Reply
}.

Definition silent (st : Server) : Outcome :=
  {| next := st; emitted := []; reply := None |}.

(** ** Helpers *)

(** The lookup loop, as [request-connection] has it: the first entry in
    insertion order whose key equals the query once hyphens are removed from
    both, with its key. *)
Fixpoint findEntry (ps : list (string * Peer)) (connectionId : string)
  : option (string * Peer) :=
  match ps with
  | [] => None
  | (connId, peer) :: rest =>
      if String.eqb (stripHyphens connId) (stripHyphens connectionId)
      then Some (connId, peer)
      else findEntry rest connectionId
  end.

(** [findPeerByConnectionId]: the same loop, returning the peer only. *)
Definition findPeerByConnectionId (ps : list (string * Peer)) (connectionId : string)
  : option Peer :=
  snd <$> findEntry ps connectionId.

(** [Array.from(peers.values()).find(p => p.socketId === sid)] *)
Definition findBySocketId (ps : list (string * Peer)) (sid : string) : option Peer :=
  List.find (fun p => String.eqb (socketId p) sid) (JsMap.values ps).

(** [peer.status = 'busy'; peer.connectedTo = other] *)
Definition markBusy (other : option string) (p : Peer) : Peer :=
  {| socketId := socketId p; status := Busy; connectedTo := other |}.

(** [peer.status = 'available'; peer.connectedTo = null] *)
Definition markAvailable (p : Peer) : Peer :=
  {| socketId := socketId p; status := Available; connectedTo := None |}.

Definition isBusy (p : Peer) : bool :=
  match status p with Busy => true | Available => false end.

(** ** Handlers *)

Section Handlers.

(** The calling socket's id, [socket.id]. *)
Variable socket : string.

(** [socket.connectionId && peers.has(socket.connectionId)] *)
Definition liveRegistration (st : Server) : option string :=
  match connectionIdOf st !! socket with
  | Some id =>
      if truthy (Some id) && JsMap.has (peers st) id then Some id else None
  | None => None
  end.

(** The preferred id, when [register] adopts it. *)
Definition adoptPreferred (ps : list (string * Peer)) (preferredId : option string)
  : option string :=
  match preferredId with
  | Some p =>
      if truthy preferredId then
        let normalizedPreferred := stripHyphens p in
        let formatted := formatId normalizedPreferred in
        if Nat.eqb (String.length normalizedPreferred) 9
           && negb (JsMap.has ps formatted)
        then Some formatted else None
      else None
  | None => None
  end.

(** [connectionId = generateConnectionId();
     while (peers.has(connectionId)) connectionId = generateConnectionId();]
    run on the numbers that [Math.random] yields, in order. [None] when the
    loop is still running after the last of them. *)
Fixpoint generateFresh (ps : list (string * Peer)) (draws : list N) : option string :=
  match draws with
  | [] => None
  | draw :: later =>
      let connectionId := generateConnectionId draw in
      if JsMap.has ps connectionId then generateFresh ps later
      else Some connectionId
  end.

(** The part of [register] that chooses the identifier. *)
Definition chooseId (ps : list (string * Peer)) (preferredId : option string)
    (draws : list N) : option string :=
  match adoptPreferred ps preferredId with
  | Some connectionId => Some connectionId
  | None => generateFresh ps draws
  end.

(** [socket.on('register', ...)], from the point where [getIceServers]
    has answered. *)
Definition register (preferredId : option string) (draws : list N) (st : Server)
  : option Outcome :=
  match liveRegistration st with
  | Some id =>
      Some {| next := st; emitted := []; reply := Some (Registered id) |}
  | None =>
      match chooseId (peers st) preferredId draws with
      | Some connectionId =>
          Some {| next :=
                    {| peers := JsMap.set (peers st) connectionId
                                  {| socketId := socket; status := Available;
                                     connectedTo := None |};
                       pendingConnections := pendingConnections st;
                       connectionIdOf := <[socket := connectionId]> (connectionIdOf st);
                       graceTimers := graceTimers st |};
                  emitted := [];
                  reply := Some (Registered connectionId) |}
      | None => None
      end
  end.

(** [socket.on('request-connection', ...)]; [requestId] is what [uuidv4]
    returns. *)
Definition requestConnection (targetId : string) (viewerName password : option string)
    (requestId : string) (st : Server) : Outcome :=
  match findEntry (peers st) targetId with
  | None => {| next := st; emitted := []; reply := Some (Failed PeerNotFound) |}
  | Some (targetConnectionId, targetPeer) =>
      if isBusy targetPeer then
        {| next := st; emitted := []; reply := Some (Failed PeerBusy) |}
      else
        {| next := withPending st
                     (JsMap.set (pendingConnections st) requestId
                        {| viewerSocketId := socket;
                           viewerConnectionId := connectionIdOf st !! socket;
                           hostSocketId := socketId targetPeer;
                           hostConnectionId := targetConnectionId |});
           emitted :=
             [(socketId targetPeer,
               ConnectionRequestMsg requestId (connectionIdOf st !! socket)
                 (orElse viewerName "Unknown")
                 (if truthy password then password else None))];
           reply := Some (Requested requestId) |}
  end.

(** [socket.on('connection-response', ...)]. The handler reads the request
    and the registry only; the socket it runs for is not mentioned in it. *)
Definition connectionResponse (requestId : string) (accepted : bool) (st : Server)
  : Outcome :=
  match JsMap.get (pendingConnections st) requestId with
  | None => silent st
  | Some request =>
      match findBySocketId (peers st) (viewerSocketId request) with
      | None =>
          silent (withPending st (JsMap.delete (pendingConnections st) requestId))
      | Some viewerPeer =>
          if accepted then
            let ps1 :=
              JsMap.adjust (markBusy (viewerConnectionId request))
                (peers st) (hostConnectionId request) in
            let ps2 :=
              match viewerConnectionId request with
              | Some v => JsMap.adjust (markBusy (Some (hostConnectionId request))) ps1 v
              | None => ps1
              end in
            {| next := {| peers := ps2;
                          pendingConnections :=
                            JsMap.delete (pendingConnections st) requestId;
                          connectionIdOf := connectionIdOf st;
                          graceTimers := graceTimers st |};
               emitted := [(socketId viewerPeer,
                            ConnectionAccepted (hostConnectionId request))];
               reply := None |}
          else
            {| next := withPending st (JsMap.delete (pendingConnections st) requestId);
               emitted := [(socketId viewerPeer,
                            ConnectionRejected (hostConnectionId request))];
               reply := None |}
      end
  end.

(** The relay handlers ([host-ready], [request-camera], [camera-response],
    [camera-ready], [webrtc-offer], [webrtc-answer],
    [webrtc-ice-candidate]); the payload is forwarded untouched and not
    recorded. *)
Definition relay (kind : RelayKind) (targetId : string) (st : Server) : Outcome :=
  match findPeerByConnectionId (peers st) targetId with
  | Some targetPeer =>
      {| next := st;
         emitted := [(socketId targetPeer, Relayed kind (connectionIdOf st !! socket))];
         reply := None |}
  | None => silent st
  end.

(** [socket.on('end-session', ...)] *)
Definition endSession (targetId : string) (st : Server) : Outcome :=
  let '(ps1, out) :=
    match findEntry (peers st) targetId with
    | Some (targetKey, targetPeer) =>
        (JsMap.adjust markAvailable (peers st) targetKey,
         [(socketId targetPeer, SessionEnded (connectionIdOf st !! socket))])
    | None => (peers st, [])
    end in
  let ps2 :=
    match connectionIdOf st !! socket with
    | Some own => JsMap.adjust markAvailable ps1 own
    | None => ps1
    end in
  {| next := withPeers st ps2; emitted := out; reply := None |}.

(** [socket.on('disconnect', ...)]: the grace-period task is scheduled
    with the identifier and the socket captured. *)
Definition disconnect (st : Server) : Outcome :=
  match connectionIdOf st !! socket with
  | Some disconnectedId =>
      if truthy (Some disconnectedId) then
        silent {| peers := peers st;
                  pendingConnections := pendingConnections st;
                  connectionIdOf := connectionIdOf st;
                  graceTimers := (graceTimers st ++ [(disconnectedId, socket)])%list |}
      else silent st
  | None => silent st
  end.

(** The loop of the grace-period task over [pendingConnections]: the
    entries that stay and the rejections emitted, in iteration order. *)
Fixpoint reapRequests (ps : list (string * Peer)) (disconnectedId : string)
    (requests : list (string * Request))
  : list (string * Request) * list (string * Message) :=
  match requests with
  | [] => ([], [])
  | (requestId, request) :: later =>
      let '(kept, out) := reapRequests ps disconnectedId later in
      if String.eqb (hostConnectionId request) disconnectedId then
        match findBySocketId ps (viewerSocketId request) with
        | Some viewerPeer =>
            (kept, (socketId viewerPeer,
                    ConnectionRejectedError PeerDisconnectedReason) :: out)
        | None => (kept, out)
        end
      else
        match viewerConnectionId request with
        | Some v =>
            if String.eqb v disconnectedId then (kept, out)
            else ((requestId, request) :: kept, out)
        | None => ((requestId, request) :: kept, out)
        end
  end.

(** The function given to [setTimeout] in the disconnect handler, for the
    captured [disconnectedId] and the captured socket. *)
Definition graceTask (disconnectedId : string) (st : Server) : Outcome :=
  match JsMap.get (peers st) disconnectedId with
  | None => silent st
  | Some peer =>
      if negb (String.eqb (socketId peer) socket) then silent st
      else
        let '(ps1, out1) :=
          if truthy (connectedTo peer) then
            match connectedTo peer with
            | Some other =>
                match findEntry (peers st) other with
                | Some (otherKey, connectedPeer) =>
                    (JsMap.adjust markAvailable (peers st) otherKey,
                     [(socketId connectedPeer, PeerDisconnected disconnectedId)])
                | None => (peers st, [])
                end
            | None => (peers st, [])
            end
          else (peers st, []) in
        let '(kept, out2) :=
          reapRequests ps1 disconnectedId (pendingConnections st) in
        {| next := {| peers := JsMap.delete ps1 disconnectedId;
                      pendingConnections := kept;
                      connectionIdOf := connectionIdOf st;
                      graceTimers := graceTimers st |};
           emitted := (out1 ++ out2)%list;
           reply := None |}
  end.

End Handlers.

(** ** The server as a transition system *)

(** What can happen: a handler runs for a message of some socket, a socket
    disconnects, or a scheduled grace-period task fires. The values that
    [Math.random] and [uuidv4] return during the run come with the event. *)
Inductive Event :=
  | Register (socket : string) (preferredId : option string) (draws : list N)
  | RequestConnection (socket targetId : string) (viewerName password : option string)
      (uuid : string)
  | ConnectionResponse (socket requestId : string) (accepted : bool)
  | Relay (socket : string) (kind : RelayKind) (targetId : string)
  | EndSession (socket targetId : string)
  | Disconnect (socket : string)
  | GraceElapsed (disconnectedId socket : string).

(** Removes the first scheduled task equal to [t]; [None] if there is none. *)
Fixpoint takeTimer (t : string * string) (timers : list (string * string))
  : option (list (string * string)) :=
  match timers with
  | [] => None
  | t' :: rest =>
      if String.eqb (fst t') (fst t) && String.eqb (snd t') (snd t) then Some rest
      else cons t' <$> takeTimer t rest
  end.

Definition step (st : Server) (e : Event) : option Outcome :=
  match e with
  | Register socket preferredId draws => register socket preferredId draws st
  | RequestConnection socket targetId viewerName password uuid =>
      Some (requestConnection socket targetId viewerName password uuid st)
  | ConnectionResponse socket requestId accepted =>
      Some (connectionResponse requestId accepted st)
  | Relay socket kind targetId => Some (relay socket kind targetId st)
  | EndSession socket targetId => Some (endSession socket targetId st)
  | Disconnect socket => Some (disconnect socket st)
  | GraceElapsed disconnectedId socket =>
      match takeTimer (disconnectedId, socket) (graceTimers st) with
      | Some timers =>
          Some (graceTask socket disconnectedId
                  {| peers := peers st;
                     pendingConnections := pendingConnections st;
                     connectionIdOf := connectionIdOf st;
                     graceTimers := timers |})
      | None => None
      end
  end.

(** The numbers an event carries are ones [Math.random] can give. *)
Definition eventOk (e : Event) : Prop :=
  match e with
  | Register _ _ draws => Forall drawInRange draws
  | _ => True
  end.

Inductive reachable : Server -> Prop :=
  | reachable_initial : reachable initial
  | reachable_step (st : Server) (e : Event) (o : Outcome) :
      reachable st -> eventOk e -> step st e = Some o -> reachable (next o).

(** Runs a sequence of events; the messages emitted and the replies are
    collected in order. [None] if some event cannot run. *)
Fixpoint run (st : Server) (es : list Event)
  : option (Server * list (string * Message) * list Reply) :=
  match es with
  | [] => Some (st, [], [])
  | e :: later =>
      match step st e with
      | Some o =>
          match run (next o) later with
          | Some (st', out, replies) =>
              Some (st', (emitted o ++ out)%list,
                    match reply o with Some r => r :: replies | None => replies end)
          | None => None
          end
      | None => None
      end
  end.

(** ** Invariants of the registry *)

(** The registry as a [Map]: no key twice, every key of the grouped shape,
    and the same for the identifier each socket remembers. *)
Record wellFormed (st : Server) : Prop := mkWellFormed {
  wf_nodup : NoDup (JsMap.keys (peers st));
  wf_keys : Forall isGrouped (JsMap.keys (peers st));
  wf_sockets : forall s id, connectionIdOf st !! s = Some id -> isGrouped id
}.

(** A peer with [connectedTo] set is busy; put the other way round, an
    available peer has [connectedTo] null. *)
Definition peerConsistent (p : Peer) : Prop :=
  is_Some (connectedTo p) -> status p = Busy.

Definition peersConsistent (st : Server) : Prop :=
  forall k p, (k, p) ∈ peers st -> peerConsistent p.


Definition allConsistent (ps : list (string * Peer)) : Prop :=
  forall k p, (k, p) ∈ ps -> peerConsistent p.

(** The state and answer of a [register] run that enters [id] for [socket]
    at the end of the registry. *)
Definition registeredAs (st : Server) (socket id : string) : Outcome :=
  {| next :=
       {| peers := peers st ++ [(id, mkPeer socket Available None)];
          pendingConnections := pendingConnections st;
          connectionIdOf := <[socket := id]> (connectionIdOf st);
          graceTimers := graceTimers st |};
     emitted := [];
     reply := Some (Registered id) |}.

(** ** Runs in which a socket disconnects once *)

(** A socket's [disconnect] event fires once. [reachableOnce closed st]: the
    state [st] is reached by a run in which no socket disconnects twice, and
    [closed] are the sockets that have disconnected. A handler may still run
    for a closed socket ([register] resumes after [getIceServers]). *)
Definition mayClose (closed : gset string) (e : Event) : Prop :=
  match e with
  | Disconnect socket => socket ∉ closed
  | _ => True
  end.

Definition closedAfter (closed : gset string) (e : Event) : gset string :=
  match e with
  | Disconnect socket => {[socket]} ∪ closed
  | _ => closed
  end.

Inductive reachableOnce : gset string -> Server -> Prop :=
  | reachableOnce_initial : reachableOnce ∅ initial
  | reachableOnce_step (closed : gset string) (st : Server) (e : Event) (o : Outcome) :
      reachableOnce closed st -> eventOk e -> mayClose closed e ->
      step st e = Some o -> reachableOnce (closedAfter closed e) (next o).

(** The entry under [k] belongs to [socket]. *)
Definition ownedBy (ps : list (string * Peer)) (k socket : string) : Prop :=
  exists p, JsMap.get ps k = Some p /\ socketId p = socket.

(** Every scheduled task still finds the entry it captured, with the socket
    it captured; a socket has one task at most; and an open socket that
    remembers an identifier owns the entry under it. *)
Record timersMatch (closed : gset string) (st : Server) : Prop := mkTimersMatch {
  tm_owned : forall k s, (k, s) ∈ graceTimers st -> s ∈ closed /\ ownedBy (peers st) k s;
  tm_nodup : NoDup (graceTimers st).*2;
  tm_open : forall s k, s ∉ closed -> connectionIdOf st !! s = Some k ->
                        ownedBy (peers st) k s
}.

(** The sockets closed at the end of a run, and the condition that no
    socket disconnects twice in it. *)
Fixpoint closedOf (closed : gset string) (es : list Event) : gset string :=
  match es with
  | [] => closed
  | e :: later => closedOf (closedAfter closed e) later
  end.

Fixpoint closesOnce (closed : gset string) (es : list Event) : Prop :=
  match es with
  | [] => True
  | e :: later => mayClose closed e /\ closesOnce (closedAfter closed e) later
  end.

(** ** Further invariants *)

(** The host of every pending request is registered, under the identifier
    and with the socket the request recorded. *)
Definition pendingHostsRegistered (st : Server) : Prop :=
  forall rid rq, (rid, rq) ∈ pendingConnections st ->
                 ownedBy (peers st) (hostConnectionId rq) (hostSocketId rq).

(** The socket of every entry remembers the entry's key as its
    [connectionId]. *)
Definition entriesRemembered (st : Server) : Prop :=
  forall k p, (k, p) ∈ peers st -> connectionIdOf st !! socketId p = Some k.

(** ** The cache of ICE servers *)

Module Ice.

(** A server descriptor, as sent to clients: [{urls, username?, credential?}]. *)
Record IceServer := mkIceServer {
  urls : string;
  username : option string;
  credential : option string
}.

(** The two module variables [cachedIceServers] and [lastIceRefresh]; times
    are [Date.now()] values, in milliseconds. *)
Record Cache := mkCache {
  cachedIceServers : list IceServer;
  lastIceRefresh : Z
}.

(** [6 * 60 * 60 * 1000] *)
Definition ICE_REFRESH_INTERVAL : Z := 6 * 60 * 60 * 1000.

Definition stunServers : list IceServer :=
  [mkIceServer "stun:stun.l.google.com:19302" None None;
   mkIceServer "stun:stun1.l.google.com:19302" None None].

Definition atStartup : Cache := mkCache stunServers 0.

(** [refreshIceServers]. [fetched] is what the [try] block obtains: the TURN
    servers the provider answered with, or [None] when [fetch], the
    [response.ok] test or [response.json()] throws; [fetchedAt] is the
    [Date.now()] taken after a successful fetch. *)
Definition refreshIceServers (fetched : option (list IceServer)) (fetchedAt : Z) (c : Cache)
  : Cache :=
  match fetched with
  | Some turnServers => mkCache (stunServers ++ turnServers) fetchedAt
  | None => c
  end.

(** [getIceServers], called at time [now], for calls that do not overlap:
    the cache afterwards and the list returned. *)
Definition getIceServers (now : Z) (fetched : option (list IceServer)) (fetchedAt : Z)
    (c : Cache) : Cache * list IceServer :=
  if (now - lastIceRefresh c >? ICE_REFRESH_INTERVAL)%Z then
    let c' := refreshIceServers fetched fetchedAt c in
    (c', cachedIceServers c')
  else (c, cachedIceServers c).

(** A sequence of calls, each with its time, what the provider would answer
    and the time of the answer; the lists returned, in order. *)
Fixpoint serve (calls : list (Z * option (list IceServer) * Z)) (c : Cache)
  : Cache * list (list IceServer) :=
  match calls with
  | [] => (c, [])
  | (now, fetched, fetchedAt) :: later =>
      let '(c1, answer) := getIceServers now fetched fetchedAt c in
      let '(c2, answers) := serve later c1 in
      (c2, answer :: answers)
  end.

(** The list begins with the two STUN servers. *)
Definition startsWithStun (l : list IceServer) : Prop :=
  exists turnServers, l = (stunServers ++ turnServers)%list.

End Ice.

(** ** The first version of the server ([server.js]) *)

Module V1.

(** [socket.on('disconnect', ...)] of [server.js]: the cleanup runs at once,
    and it does not look at the socket of the entry. *)
Definition disconnect (socket : string) (st : Server) : Outcome :=
  match connectionIdOf st !! socket with
  | Some connectionId =>
      if truthy (Some connectionId) then
        let '(ps1, out1) :=
          match JsMap.get (peers st) connectionId with
          | Some peer =>
              if truthy (connectedTo peer) then
                match connectedTo peer with
                | Some other =>
                    match findEntry (peers st) other with
                    | Some (otherKey, connectedPeer) =>
                        (JsMap.adjust markAvailable (peers st) otherKey,
                         [(socketId connectedPeer, PeerDisconnected connectionId)])
                    | None => (peers st, [])
                    end
                | None => (peers st, [])
                end
              else (peers st, [])
          | None => (peers st, [])
          end in
        let '(kept, out2) :=
          reapRequests ps1 connectionId (pendingConnections st) in
        {| next := {| peers := JsMap.delete ps1 connectionId;
                      pendingConnections := kept;
                      connectionIdOf := connectionIdOf st;
                      graceTimers := graceTimers st |};
           emitted := (out1 ++ out2)%list;
           reply := None |}
      else silent st
  | None => silent st
  end.

End V1.

(** ** The status endpoint *)

(** [peers], as the status endpoint reads it. *)
Definition registryOf (st : Server) : list (string * Peer) := peers st.

Module Health.

(** The body [app.get('/')] answers with; [uptime] is
    [Math.floor(process.uptime())]. *)
Record Report := mkReport {
  status : string;
  service : string;
  peers : nat;
  uptime : Z;
  version : string
}.

Definition report (uptime : Z) (st : Server) : Report :=
  {| status := "ok";
     service := "Remote Desktop Signaling Server";
     peers := length (registryOf st);
     uptime := uptime;
     version := "1.0.0" |}.

End Health.

(** Two states that differ in the scheduled timers at most. *)
Definition sameButTimers (a b : Server) : Prop :=
  peers a = peers b /\ pendingConnections a = pendingConnections b /\
  connectionIdOf a = connectionIdOf b.

(** ** Sample runs *)

(** The state a sequence of events leads to from the empty server. *)
Definition stateAfter (es : list Event) : Server :=
  match run initial es with
  | Some (st, _, _) => st
  | None => initial
  end.

(** A host that registers with a preferred id, and a viewer that gets a
    generated one. *)
Definition twoRegistrations : list Event :=
  [Register "socket-H" (Some "123456789") [];
   Register "socket-V" None [222333444%N]].

(** The viewer asks for the host, the host accepts. *)
Definition pairedSession : list Event :=
  twoRegistrations ++
  [RequestConnection "socket-V" "123456789" (Some "viewer") None "request-1";
   ConnectionResponse "socket-H" "request-1" true].

(** Both registered, the viewer has asked, the host has not answered. *)
Definition requestPending : list Event :=
  twoRegistrations ++
  [RequestConnection "socket-V" "123456789" (Some "viewer") None "request-1"].

(** A socket asks for the host before it registers, registers, and the host
    has not answered yet. *)
Definition earlyRequest : list Event :=
  [Register "socket-H" (Some "123456789") [];
   RequestConnection "socket-V" "123456789" (Some "viewer") None "request-1";
   Register "socket-V" None [222333444%N]].

(** A socket that never registers asks for the host. *)
Definition strangerRequest : list Event :=
  [Register "socket-H" (Some "123456789") [];
   RequestConnection "socket-V" "123456789" (Some "viewer") None "request-1"].

(** Host H, viewer V and a third peer W. V and W both ask for H, H asks
    for W, H accepts V, and H's socket disconnects: H is paired with V, has
    a request of W pending as host and one to W pending as viewer. *)
Definition hostDrops : list Event :=
  twoRegistrations ++
  [Register "socket-W" None [333444555%N];
   RequestConnection "socket-V" "123456789" (Some "viewer") None "request-1";
   RequestConnection "socket-W" "123-456-789" None None "request-2";
   RequestConnection "socket-H" "333444555" None None "request-3";
   ConnectionResponse "socket-H" "request-1" true;
   Disconnect "socket-H"].

(** The outcome of an event that can run. *)
Definition outcomeOf (st : Server) (e : Event) : Outcome :=
  match step st e with
  | Some o => o
  | None => silent st
  end.

(** A socket that never registers asks for the host, and the host's socket
    disconnects. *)
Definition hostDropsOnStranger : list Event :=
  strangerRequest ++ [Disconnect "socket-H"].

(** The host of a paired session disconnects and a new socket asks for the
    host's identifier before the grace period is over. *)
Definition reconnectWithinGrace : list Event :=
  pairedSession ++
  [Disconnect "socket-H";
   Register "socket-H2" (Some "123-456-789") [555666777%N];
   GraceElapsed "123-456-789" "socket-H"].

(** One viewer asks two hosts, and both accept. *)
Definition twoHostsAccept : list Event :=
  [Register "socket-A" (Some "111111111") [];
   Register "socket-B" (Some "222222222") [];
   Register "socket-V" (Some "333333333") [];
   RequestConnection "socket-V" "111-111-111" None None "request-1";
   RequestConnection "socket-V" "222-222-222" None None "request-2";
   ConnectionResponse "socket-A" "request-1" true;
   ConnectionResponse "socket-B" "request-2" true].

(** The early request of [earlyRequest], accepted. *)
Definition earlyRequestAccepted : list Event :=
  earlyRequest ++ [ConnectionResponse "socket-H" "request-1" true].

(** * Proofs *)

Local Open Scope string_scope.

(** ** Facts about strings and identifiers *)

Section StringFacts.

Lemma stripHyphens_app (a b : string) :
  stripHyphens (a ++ b) = stripHyphens a ++ stripHyphens b.
Proof.
  induction a as [|c a IH]; simpl; [reflexivity|].
  destruct (Ascii.eqb c "-"); simpl; now rewrite IH.
Qed.

Lemma stripHyphens_length (s : string) :
  String.length (stripHyphens s) <= String.length s.
Proof.
  induction s as [|c s IH]; simpl; [lia|].
  destruct (Ascii.eqb c "-"); simpl; lia.
Qed.

Lemma stripHyphens_fixed_cons (c : ascii) (s : string) :
  stripHyphens (String c s) = String c s ->
  Ascii.eqb c "-" = false /\ stripHyphens s = s.
Proof.
  simpl. destruct (Ascii.eqb c "-") eqn:E; intros H.
  - pose proof (stripHyphens_length s) as Hl. rewrite H in Hl. simpl in Hl. lia.
  - split; [reflexivity|]. injection H as H. exact H.
Qed.

Lemma stripHyphens_idem (s : string) :
  stripHyphens (stripHyphens s) = stripHyphens s.
Proof.
  induction s as [|c s IH]; simpl; [reflexivity|].
  destruct (Ascii.eqb c "-") eqn:E; simpl; [exact IH|].
  now rewrite E, IH.
Qed.

Lemma stripHyphens_substring (s : string) :
  stripHyphens s = s ->
  forall n m, stripHyphens (substring n m s) = substring n m s.
Proof.
  induction s as [|c s IH]; intros H n m.
  - destruct n, m; reflexivity.
  - apply stripHyphens_fixed_cons in H as [Hc Hs].
    destruct n as [|n]; [destruct m as [|m]|]; simpl; auto.
    rewrite Hc. f_equal. apply IH; assumption.
Qed.

Lemma append_cons (c : ascii) (a b : string) :
  String c a ++ b = String c (a ++ b).
Proof. reflexivity. Qed.

Lemma append_empty_l (a : string) : "" ++ a = a.
Proof. reflexivity. Qed.

Lemma substring_split (s : string) :
  forall a b, substring 0 a s ++ substring a b s = substring 0 (a + b) s.
Proof.
  induction s as [|c s IH]; intros a b.
  - destruct a, b; reflexivity.
  - destruct a as [|a]; simpl; [reflexivity|].
    rewrite append_cons. f_equal. apply IH.
Qed.

Lemma substring_all (s : string) : substring 0 (String.length s) s = s.
Proof. induction s as [|c s IH]; simpl; [reflexivity|now rewrite IH]. Qed.

Lemma app_assoc_str (a b c : string) : (a ++ b) ++ c = a ++ (b ++ c).
Proof.
  induction a as [|x a IH]; [reflexivity|].
  rewrite !append_cons. now rewrite IH.
Qed.

Lemma app_empty_r (a : string) : a ++ "" = a.
Proof.
  induction a as [|x a IH]; [reflexivity|].
  rewrite append_cons. now rewrite IH.
Qed.

(** Removing the hyphens of a formatted id gives back the nine characters
    it was formatted from. *)
Lemma stripHyphens_formatId (n : string) :
  stripHyphens n = n -> String.length n = 9 ->
  stripHyphens (formatId n) = n.
Proof.
  intros Hn Hl. unfold formatId, slice.
  rewrite !stripHyphens_app, !stripHyphens_substring by assumption.
  change (stripHyphens "-") with "".
  change (3 - 0) with 3. change (6 - 3) with 3. change (9 - 6) with 3.
  rewrite !append_empty_l, <- app_assoc_str, !substring_split.
  cbn [Nat.add]. rewrite <- Hl at 1. apply substring_all.
Qed.

Lemma formatId_isGrouped (n : string) :
  stripHyphens n = n -> String.length n = 9 -> isGrouped (formatId n).
Proof.
  intros Hn Hl. unfold isGrouped.
  rewrite (stripHyphens_formatId n Hn Hl). split; [exact Hl|reflexivity].
Qed.

(** Two keys of the registry's shape with the same characters are equal. *)
Lemma isGrouped_inj (k1 k2 : string) :
  isGrouped k1 -> isGrouped k2 -> stripHyphens k1 = stripHyphens k2 -> k1 = k2.
Proof.
  intros [_ H1] [_ H2] E. rewrite <- H1, <- H2, E. reflexivity.
Qed.

Lemma isGrouped_nonempty (k : string) : isGrouped k -> k <> "".
Proof. intros [Hl _] ->. simpl in Hl. discriminate. Qed.

End StringFacts.

(** *** Decimal printing of a drawn number *)

Section Decimal.

Local Open Scope N_scope.

Lemma digitsOf_more (f : nat) (n : N) (acc : string) :
  10 <= n ->
  digitsOf (S f) n acc = digitsOf f (n / 10) (String (digitChar (n mod 10)) acc).
Proof.
  intros Hn. cbn [digitsOf].
  destruct (N.eqb_spec (n / 10) 0) as [E|E]; [|reflexivity].
  apply N.div_small_iff in E; lia.
Qed.

Lemma digitsOf_last (f : nat) (n : N) (acc : string) :
  n < 10 -> digitsOf (S f) n acc = String (digitChar n) acc.
Proof.
  intros Hn. cbn [digitsOf]. rewrite (N.mod_small n 10) by exact Hn.
  rewrite (N.div_small n 10) by exact Hn. reflexivity.
Qed.

Lemma isDigit_digitChar (d : N) : d < 10 -> isDigit (digitChar d) = true.
Proof.
  intros Hd. unfold isDigit, digitChar.
  rewrite N_ascii_embedding by lia.
  apply andb_true_intro; split; apply N.leb_le; lia.
Qed.

Lemma div10_bounds (a b n : N) :
  10 * a <= n < 10 * b -> a <= n / 10 < b.
Proof.
  intros [Hlo Hhi]. split.
  - apply N.div_le_lower_bound; lia.
  - apply N.Div0.div_lt_upper_bound; lia.
Qed.

Lemma log2_fuel (n : N) : 100000000 <= n -> (9 <= N.to_nat (N.log2 n))%nat.
Proof.
  intros Hn.
  assert (H : 26 <= N.log2 n).
  { change 26 with (N.log2 (2 ^ 26)). apply N.log2_le_mono. simpl. lia. }
  lia.
Qed.

(** A number drawn by [generateConnectionId] prints as nine digits. *)
Lemma toString_nine_digits (n : N) :
  drawInRange n ->
  exists c1 c2 c3 c4 c5 c6 c7 c8 c9 : ascii,
    toString n =
      String c1 (String c2 (String c3 (String c4 (String c5
        (String c6 (String c7 (String c8 (String c9 "")))))))) /\
    Forall (fun c => isDigit c = true) [c1; c2; c3; c4; c5; c6; c7; c8; c9].
Proof.
  intros [Hlo Hhi]. unfold toString.
  pose proof (log2_fuel n Hlo) as Hf.
  destruct (N.to_nat (N.log2 n)) as [|[|[|[|[|[|[|[|[|f]]]]]]]]]; try lia.
  clear Hf.
  assert (H1 := div10_bounds 10000000 100000000 n ltac:(lia)).
  assert (H2 := div10_bounds 1000000 10000000 _ H1).
  assert (H3 := div10_bounds 100000 1000000 _ H2).
  assert (H4 := div10_bounds 10000 100000 _ H3).
  assert (H5 := div10_bounds 1000 10000 _ H4).
  assert (H6 := div10_bounds 100 1000 _ H5).
  assert (H7 := div10_bounds 10 100 _ H6).
  assert (H8 := div10_bounds 1 10 _ H7).
  do 8 (rewrite digitsOf_more by lia).
  rewrite digitsOf_last by lia.
  do 9 eexists. split; [reflexivity|].
  repeat constructor; apply isDigit_digitChar;
    solve [ lia | apply N.mod_lt; lia ].
Qed.

End Decimal.

(** A generated identifier has the three-groups shape, and it is a key of the
    registry's shape. *)
Lemma generateConnectionId_shape (n : N) :
  drawInRange n ->
  threeDigitGroups (generateConnectionId n) /\ isGrouped (generateConnectionId n).
Proof.
  intros Hn. destruct (toString_nine_digits n Hn)
    as (c1 & c2 & c3 & c4 & c5 & c6 & c7 & c8 & c9 & E & Hd).
  unfold generateConnectionId. rewrite E.
  repeat match goal with H : Forall _ (_ :: _) |- _ => inversion H; subst; clear H end.
  split.
  - exists (String c1 (String c2 (String c3 ""))),
           (String c4 (String c5 (String c6 ""))),
           (String c7 (String c8 (String c9 ""))).
    repeat split; try reflexivity; cbn [allDigits];
      repeat match goal with H : isDigit _ = true |- _ => rewrite H; clear H end;
      reflexivity.
  - apply formatId_isGrouped; [|reflexivity].
    assert (Hh : forall c, isDigit c = true -> Ascii.eqb c "-" = false).
    { intros c Hc. destruct (Ascii.eqb_spec c "-") as [->|]; [discriminate Hc|reflexivity]. }
    simpl. rewrite !Hh by assumption. reflexivity.
Qed.

Local Close Scope string_scope.

Lemma run_reachable (es : list Event) :
  forall st st' out replies,
    reachable st -> Forall eventOk es -> run st es = Some (st', out, replies) ->
    reachable st'.
Proof.
  induction es as [|e es IH]; intros st st' out replies Hst Hok Hrun; simpl in Hrun.
  - inversion Hrun; subst; exact Hst.
  - inversion Hok as [|? ? He Hes]; subst.
    destruct (step st e) as [o|] eqn:Hstep; [|discriminate].
    destruct (run (next o) es) as [[[st1 out1] rep1]|] eqn:Hrest; [|discriminate].
    inversion Hrun; subst.
    eapply IH; [|exact Hes|exact Hrest].
    eapply reachable_step; eassumption.
Qed.


(** ** Facts about the maps *)

Section JsMapFacts.
Context {V : Type}.
Implicit Types (m : list (string * V)) (k : string) (v : V).

Lemma eqb_refl_str k : String.eqb k k = true.
Proof. apply String.eqb_refl. Qed.

Lemma eqb_false_str k k' : k <> k' -> String.eqb k k' = false.
Proof. intros H. now apply String.eqb_neq. Qed.

Lemma get_Some_elem m k v : JsMap.get m k = Some v -> (k, v) ∈ m.
Proof.
  induction m as [|[k' v'] m IH]; simpl; [discriminate|].
  destruct (String.eqb_spec k' k) as [->|Hne].
  - intros [= ->]. left.
  - intros H. right. auto.
Qed.

Lemma get_None_keys m k : JsMap.get m k = None <-> k ∉ JsMap.keys m.
Proof.
  unfold JsMap.keys. induction m as [|[k' v'] m IH]; simpl.
  - split; [intros _; apply not_elem_of_nil|reflexivity].
  - rewrite not_elem_of_cons.
    destruct (String.eqb_spec k' k) as [->|Hne]; split.
    + discriminate.
    + intros [H _]. now contradiction H.
    + intros H. split; [congruence|]. now apply IH.
    + intros [_ H]. now apply IH.
Qed.

Lemma has_true_keys m k : JsMap.has m k = true <-> k ∈ JsMap.keys m.
Proof.
  unfold JsMap.has. pose proof (get_None_keys m k) as H.
  destruct (JsMap.get m k); split; intros H1; try reflexivity; try discriminate.
  - destruct (decide (k ∈ JsMap.keys m)) as [|Hn]; [assumption|].
    apply H in Hn. discriminate.
  - exfalso. now apply (proj1 H).
Qed.

Lemma has_false_get m k : JsMap.has m k = false <-> JsMap.get m k = None.
Proof. unfold JsMap.has. destruct (JsMap.get m k); split; congruence. Qed.

Lemma elem_get_NoDup m k v :
  NoDup (JsMap.keys m) -> (k, v) ∈ m -> JsMap.get m k = Some v.
Proof.
  unfold JsMap.keys. induction m as [|[k' v'] m IH]; simpl.
  - intros _ H. now apply elem_of_nil in H.
  - rewrite NoDup_cons. intros [Hk Hnd] [[= -> ->]|Hin]%elem_of_cons.
    + now rewrite eqb_refl_str.
    + destruct (String.eqb_spec k' k) as [->|Hne]; [|auto].
      exfalso. apply Hk. apply list_elem_of_fmap. now exists (k, v).
Qed.

(** A new key goes last. *)
Lemma set_fresh m k v : JsMap.has m k = false -> JsMap.set m k v = m ++ [(k, v)].
Proof.
  rewrite has_false_get.
  induction m as [|[k' v'] m IH]; simpl; [reflexivity|].
  destruct (String.eqb k' k); [discriminate|].
  intros H. now rewrite IH.
Qed.

Lemma get_set_eq m k v : JsMap.get (JsMap.set m k v) k = Some v.
Proof.
  induction m as [|[k' v'] m IH]; simpl.
  - now rewrite eqb_refl_str.
  - destruct (String.eqb k' k) eqn:E; simpl.
    + now rewrite eqb_refl_str.
    + now rewrite E.
Qed.

Lemma get_set_ne m k k' v : k <> k' -> JsMap.get (JsMap.set m k v) k' = JsMap.get m k'.
Proof.
  intros Hne. induction m as [|[k0 v0] m IH]; simpl.
  - now rewrite eqb_false_str.
  - destruct (String.eqb_spec k0 k) as [->|Hk]; simpl.
    + now rewrite !eqb_false_str.
    + now rewrite IH.
Qed.

Lemma keys_adjust (f : V -> V) m k : JsMap.keys (JsMap.adjust f m k) = JsMap.keys m.
Proof.
  unfold JsMap.keys. induction m as [|[k' v'] m IH]; csimpl; [reflexivity|].
  destruct (String.eqb k' k); csimpl; [reflexivity|now rewrite IH].
Qed.

Lemma get_adjust_eq (f : V -> V) m k :
  JsMap.get (JsMap.adjust f m k) k = f <$> JsMap.get m k.
Proof.
  induction m as [|[k' v'] m IH]; simpl; [reflexivity|].
  destruct (String.eqb k' k) eqn:E; simpl; rewrite E; [reflexivity|exact IH].
Qed.

Lemma get_adjust_ne (f : V -> V) m k k' :
  k <> k' -> JsMap.get (JsMap.adjust f m k) k' = JsMap.get m k'.
Proof.
  intros Hne. induction m as [|[k0 v0] m IH]; simpl; [reflexivity|].
  destruct (String.eqb_spec k0 k) as [->|Hk]; simpl.
  - now rewrite !eqb_false_str.
  - now rewrite IH.
Qed.

Lemma elem_adjust (f : V -> V) m k k' v' :
  (k', v') ∈ JsMap.adjust f m k ->
  (k', v') ∈ m \/ exists v, (k', v) ∈ m /\ k' = k /\ v' = f v.
Proof.
  induction m as [|[k0 v0] m IH]; simpl; [intros H; now left|].
  destruct (String.eqb_spec k0 k) as [->|Hk].
  - intros [[= -> ->]|H]%elem_of_cons.
    + right. exists v0. split; [left|auto].
    + left. now right.
  - intros [[= -> ->]|H]%elem_of_cons.
    + left. left.
    + destruct (IH H) as [H1|(v & H1 & H2)].
      * left. now right.
      * right. exists v. split; [now right|exact H2].
Qed.

Lemma get_delete_eq m k : JsMap.get (JsMap.delete m k) k = None.
Proof.
  induction m as [|[k' v'] m IH]; simpl; [reflexivity|].
  destruct (String.eqb k' k) eqn:E; simpl; [exact IH|now rewrite E].
Qed.

Lemma get_delete_ne m k k' : k <> k' -> JsMap.get (JsMap.delete m k) k' = JsMap.get m k'.
Proof.
  intros Hne. induction m as [|[k0 v0] m IH]; simpl; [reflexivity|].
  destruct (String.eqb_spec k0 k) as [->|Hk]; simpl.
  - now rewrite eqb_false_str.
  - now rewrite IH.
Qed.

Lemma elem_delete m k k' v' : (k', v') ∈ JsMap.delete m k -> (k', v') ∈ m /\ k' <> k.
Proof.
  induction m as [|[k0 v0] m IH]; simpl; [intros H; now apply elem_of_nil in H|].
  destruct (String.eqb_spec k0 k) as [->|Hk].
  - intros H. destruct (IH H). split; [now right|assumption].
  - intros [[= -> ->]|H]%elem_of_cons.
    + split; [left|assumption].
    + destruct (IH H). split; [now right|assumption].
Qed.

Lemma NoDup_keys_delete m k : NoDup (JsMap.keys m) -> NoDup (JsMap.keys (JsMap.delete m k)).
Proof.
  unfold JsMap.keys. induction m as [|[k0 v0] m IH]; simpl; [auto|].
  rewrite NoDup_cons. intros [Hk Hnd].
  destruct (String.eqb k0 k); [auto|]. simpl. apply NoDup_cons. split; [|auto].
  intros ([k1 v1] & E & Hin)%list_elem_of_fmap. simpl in E. subst k1.
  apply elem_delete in Hin as [Hin _].
  apply Hk. apply list_elem_of_fmap. now exists (k0, v1).
Qed.

End JsMapFacts.

Section Invariants.

Lemma adoptPreferred_Some ps preferredId id :
  adoptPreferred ps preferredId = Some id ->
  exists p, preferredId = Some p /\ String.length (stripHyphens p) = 9 /\
            id = formatId (stripHyphens p) /\ JsMap.has ps id = false.
Proof.
  unfold adoptPreferred. destruct preferredId as [p|]; [|discriminate].
  destruct (truthy (Some p)); [|discriminate].
  destruct (Nat.eqb_spec (String.length (stripHyphens p)) 9) as [Hl|]; [|discriminate].
  destruct (JsMap.has ps (formatId (stripHyphens p))) eqn:Hh; [discriminate|].
  simpl. intros [= <-]. exists p. auto.
Qed.

Lemma generateFresh_Some ps draws id :
  generateFresh ps draws = Some id ->
  exists before draw after,
    draws = before ++ draw :: after /\
    Forall (fun d => JsMap.has ps (generateConnectionId d) = true) before /\
    id = generateConnectionId draw /\ JsMap.has ps id = false.
Proof.
  induction draws as [|d draws IH]; simpl; [discriminate|].
  destruct (JsMap.has ps (generateConnectionId d)) eqn:Hh.
  - intros H. destruct (IH H) as (b & x & a & -> & Hb & -> & Hx).
    exists (d :: b), x, a. repeat split; auto.
  - intros [= <-]. exists [], d, draws. repeat split; auto.
Qed.

Lemma generateFresh_first ps before draw after :
  Forall (fun d => JsMap.has ps (generateConnectionId d) = true) before ->
  JsMap.has ps (generateConnectionId draw) = false ->
  generateFresh ps (before ++ draw :: after) = Some (generateConnectionId draw).
Proof.
  intros Hb Hd. induction Hb as [|d before Hd' _ IH]; simpl.
  - now rewrite Hd.
  - now rewrite Hd'.
Qed.

Lemma chooseId_fresh ps preferredId draws id :
  Forall drawInRange draws ->
  chooseId ps preferredId draws = Some id ->
  isGrouped id /\ JsMap.has ps id = false.
Proof.
  intros Hd. unfold chooseId.
  destruct (adoptPreferred ps preferredId) as [a|] eqn:Ha.
  - intros [= <-]. apply adoptPreferred_Some in Ha as (p & _ & Hl & -> & Hh).
    split; [|exact Hh]. apply formatId_isGrouped; [apply stripHyphens_idem|exact Hl].
  - intros (b & x & a & -> & _ & -> & Hx)%generateFresh_Some.
    split; [|exact Hx]. apply generateConnectionId_shape.
    apply Forall_app in Hd as [_ Hd]. now apply Forall_cons in Hd as [Hd _].
Qed.

Lemma liveRegistration_Some socket st id :
  liveRegistration socket st = Some id ->
  connectionIdOf st !! socket = Some id /\ JsMap.has (peers st) id = true.
Proof.
  unfold liveRegistration. destruct (connectionIdOf st !! socket) as [c|]; [|discriminate].
  destruct (truthy (Some c)); simpl; [|discriminate].
  destruct (JsMap.has (peers st) c) eqn:E; [|discriminate].
  intros [= <-]. auto.
Qed.

(** Every run of [register] that changes the registry adds one entry, for
    the calling socket, under a key that was not there. *)
Lemma register_next socket preferredId draws st o :
  register socket preferredId draws st = Some o ->
  next o = st \/
  exists id,
    chooseId (peers st) preferredId draws = Some id /\
    peers (next o) = JsMap.set (peers st) id (mkPeer socket Available None) /\
    pendingConnections (next o) = pendingConnections st /\
    connectionIdOf (next o) = <[socket := id]> (connectionIdOf st) /\
    graceTimers (next o) = graceTimers st.
Proof.
  unfold register. destruct (liveRegistration socket st).
  - intros [= <-]. now left.
  - destruct (chooseId (peers st) preferredId draws) as [id|]; [|discriminate].
    intros [= <-]. right. exists id. simpl. auto.
Qed.

Lemma wellFormed_initial : wellFormed initial.
Proof.
  split; simpl.
  - apply NoDup_nil_2.
  - constructor.
  - intros s id H. now rewrite lookup_empty in H.
Qed.

Lemma wellFormed_same_keys st st' :
  JsMap.keys (peers st') = JsMap.keys (peers st) ->
  connectionIdOf st' = connectionIdOf st ->
  wellFormed st -> wellFormed st'.
Proof. intros Hk Hc [H1 H2 H3]. split; rewrite ?Hk, ?Hc; assumption. Qed.

Lemma Forall_keys_delete (P : string -> Prop) (ps : list (string * Peer)) k :
  Forall P (JsMap.keys ps) -> Forall P (JsMap.keys (JsMap.delete ps k)).
Proof.
  unfold JsMap.keys. rewrite !Forall_forall.
  intros H x ([k1 v1] & -> & Hin)%list_elem_of_fmap.
  apply elem_delete in Hin as [Hin _]. apply H.
  apply list_elem_of_fmap. now exists (k1, v1).
Qed.

Lemma wellFormed_step st e o :
  wellFormed st -> eventOk e -> step st e = Some o -> wellFormed (next o).
Proof.
  intros Hwf Hok Hstep. destruct e; simpl in Hstep, Hok.
  - destruct (register_next _ _ _ _ _ Hstep) as [->|(id & Hid & Hp & _ & Hc & _)];
      [exact Hwf|].
    destruct (chooseId_fresh _ _ _ _ Hok Hid) as [Hg Hf].
    destruct Hwf as [H1 H2 H3]. split.
    + rewrite Hp, set_fresh by exact Hf. unfold JsMap.keys in *.
      rewrite fmap_app. apply NoDup_app. split; [exact H1|]. split.
      * intros x Hx [->|[]%elem_of_nil]%elem_of_cons.
        apply has_true_keys in Hx. simpl in Hx. congruence.
      * apply NoDup_singleton.
    + rewrite Hp, set_fresh by exact Hf. unfold JsMap.keys in *.
      rewrite fmap_app. apply Forall_app. split; [exact H2|]. now constructor.
    + intros s i. rewrite Hc. rewrite lookup_insert.
      destruct (decide (socket = s)); [intros [= <-]; exact Hg|apply H3].
  - injection Hstep as <-. revert Hwf. unfold requestConnection.
    destruct (findEntry (peers st) targetId) as [[tk tp]|]; [|auto].
    destruct (isBusy tp); [auto|]. apply wellFormed_same_keys; reflexivity.
  - injection Hstep as <-. revert Hwf. unfold connectionResponse.
    destruct (JsMap.get (pendingConnections st) requestId) as [rq|]; [|auto].
    destruct (findBySocketId (peers st) (viewerSocketId rq)); [|apply wellFormed_same_keys; reflexivity].
    destruct accepted; apply wellFormed_same_keys; try reflexivity.
    simpl. destruct (viewerConnectionId rq); now rewrite !keys_adjust.
  - injection Hstep as <-. revert Hwf. unfold relay.
    destruct (findPeerByConnectionId (peers st) targetId); auto.
  - injection Hstep as <-. revert Hwf. unfold endSession.
    destruct (findEntry (peers st) targetId) as [[tk tp]|];
      destruct (connectionIdOf st !! socket);
      apply wellFormed_same_keys; simpl; now rewrite ?keys_adjust.
  - injection Hstep as <-. revert Hwf. unfold disconnect.
    destruct (connectionIdOf st !! socket) as [c|]; [|auto].
    destruct (truthy (Some c)); [|auto]. apply wellFormed_same_keys; reflexivity.
  - destruct (takeTimer (disconnectedId, socket) (graceTimers st)) as [tm|]; [|discriminate].
    injection Hstep as <-. unfold graceTask. simpl.
    destruct (JsMap.get (peers st) disconnectedId) as [peer|];
      [|revert Hwf; apply wellFormed_same_keys; reflexivity].
    destruct (negb (String.eqb (socketId peer) socket));
      [revert Hwf; apply wellFormed_same_keys; reflexivity|].
    set (r := if truthy (connectedTo peer) then _ else _).
    assert (Hr : JsMap.keys r.1 = JsMap.keys (peers st)).
    { subst r. destruct (truthy (connectedTo peer)); [|reflexivity].
      destruct (connectedTo peer); [|reflexivity].
      destruct (findEntry (peers st) s) as [[ok op]|]; [|reflexivity].
      simpl. apply keys_adjust. }
    destruct r as [ps1 out1]. simpl in Hr.
    destruct (reapRequests ps1 disconnectedId (pendingConnections st)) as [kept out2].
    destruct Hwf as [H1 H2 H3]. split; simpl.
    + apply NoDup_keys_delete. now rewrite Hr.
    + apply Forall_keys_delete. now rewrite Hr.
    + exact H3.
Qed.

Lemma reachable_wellFormed st : reachable st -> wellFormed st.
Proof.
  induction 1 as [|st e o _ IH Hok Hstep]; [apply wellFormed_initial|].
  eapply wellFormed_step; eassumption.
Qed.

End Invariants.

Section Consistency.

Lemma markBusy_consistent other p : peerConsistent (markBusy other p).
Proof. intros _. reflexivity. Qed.

Lemma markAvailable_consistent p : peerConsistent (markAvailable p).
Proof. intros [x Hx]. discriminate Hx. Qed.

Lemma allConsistent_adjust f ps k :
  (forall p, peerConsistent (f p)) ->
  allConsistent ps -> allConsistent (JsMap.adjust f ps k).
Proof.
  intros Hf H k' p' [Hin|(v & _ & _ & ->)]%elem_adjust; [eauto|apply Hf].
Qed.

Lemma allConsistent_delete ps k :
  allConsistent ps -> allConsistent (JsMap.delete ps k).
Proof. intros H k' p' [Hin _]%elem_delete. eauto. Qed.

Lemma allConsistent_set_new ps k s :
  JsMap.has ps k = false ->
  allConsistent ps -> allConsistent (JsMap.set ps k (mkPeer s Available None)).
Proof.
  intros Hf H k' p'. rewrite set_fresh by exact Hf.
  intros [Hin|[[= -> ->]|[]%elem_of_nil]%elem_of_cons]%elem_of_app; [eauto|].
  intros [x Hx]. discriminate Hx.
Qed.

Lemma chooseId_not_held ps preferredId draws id :
  chooseId ps preferredId draws = Some id -> JsMap.has ps id = false.
Proof.
  unfold chooseId. destruct (adoptPreferred ps preferredId) as [a|] eqn:Ha.
  - intros [= <-]. now apply adoptPreferred_Some in Ha as (p & _ & _ & _ & Hh).
  - now intros (b & x & a & _ & _ & _ & Hx)%generateFresh_Some.
Qed.

(** Every handler and the grace-period task keep all peers consistent. *)
Lemma peersConsistent_step st e o :
  peersConsistent st -> step st e = Some o -> peersConsistent (next o).
Proof.
  unfold peersConsistent. fold (allConsistent (peers st)).
  fold (allConsistent (peers (next o))).
  intros Hc Hstep. destruct e; simpl in Hstep.
  - destruct (register_next _ _ _ _ _ Hstep) as [->|(id & Hid & -> & _)];
      [exact Hc|].
    apply allConsistent_set_new; [|exact Hc]. eapply chooseId_not_held, Hid.
  - injection Hstep as <-. unfold requestConnection.
    destruct (findEntry (peers st) targetId) as [[tk tp]|]; [|exact Hc].
    destruct (isBusy tp); exact Hc.
  - injection Hstep as <-. unfold connectionResponse.
    destruct (JsMap.get (pendingConnections st) requestId) as [rq|]; [|exact Hc].
    destruct (findBySocketId (peers st) (viewerSocketId rq)); [|exact Hc].
    destruct accepted; [|exact Hc]. simpl.
    destruct (viewerConnectionId rq);
      repeat (apply allConsistent_adjust; [apply markBusy_consistent|]); exact Hc.
  - injection Hstep as <-. unfold relay.
    destruct (findPeerByConnectionId (peers st) targetId); exact Hc.
  - injection Hstep as <-. unfold endSession.
    destruct (findEntry (peers st) targetId) as [[tk tp]|];
      destruct (connectionIdOf st !! socket); simpl;
      repeat (apply allConsistent_adjust; [apply markAvailable_consistent|]); exact Hc.
  - injection Hstep as <-. unfold disconnect.
    destruct (connectionIdOf st !! socket) as [c|]; [|exact Hc].
    destruct (truthy (Some c)); exact Hc.
  - destruct (takeTimer (disconnectedId, socket) (graceTimers st)) as [tm|]; [|discriminate].
    injection Hstep as <-. unfold graceTask. simpl.
    destruct (JsMap.get (peers st) disconnectedId) as [peer|]; [|exact Hc].
    destruct (negb (String.eqb (socketId peer) socket)); [exact Hc|].
    set (r := if truthy (connectedTo peer) then _ else _).
    assert (Hr : allConsistent r.1).
    { subst r. destruct (truthy (connectedTo peer)); [|exact Hc].
      destruct (connectedTo peer); [|exact Hc].
      destruct (findEntry (peers st) s) as [[ok op]|]; [|exact Hc].
      simpl. apply allConsistent_adjust; [apply markAvailable_consistent|exact Hc]. }
    destruct r as [ps1 out1]. simpl in Hr.
    destruct (reapRequests ps1 disconnectedId (pendingConnections st)) as [kept out2].
    simpl. now apply allConsistent_delete.
Qed.

Lemma peersConsistent_initial : peersConsistent initial.
Proof. intros k p H. now apply elem_of_nil in H. Qed.

Lemma reachable_peersConsistent st : reachable st -> peersConsistent st.
Proof.
  induction 1 as [|st e o _ IH _ Hstep]; [apply peersConsistent_initial|].
  eapply peersConsistent_step; eassumption.
Qed.

End Consistency.

(** ** Sample runs are reachable *)

Lemma stateAfter_reachable (es : list Event) :
  Forall eventOk es -> reachable (stateAfter es).
Proof.
  intros Hok. unfold stateAfter.
  destruct (run initial es) as [[[st out] replies]|] eqn:Hrun.
  - eapply run_reachable; [apply reachable_initial|exact Hok|exact Hrun].
  - apply reachable_initial.
Qed.

Ltac solve_eventOk :=
  repeat first
    [ apply Forall_nil_2
    | apply Forall_cons_2
    | exact I
    | progress (unfold drawInRange; simpl)
    | lia ].

Ltac find_elem := first [ left | right; find_elem ].
Ltac solve_elem := vm_compute; find_elem.

Lemma twoRegistrations_ok : Forall eventOk twoRegistrations.
Proof. unfold twoRegistrations. solve_eventOk. Qed.

Lemma pairedSession_ok : Forall eventOk pairedSession.
Proof. unfold pairedSession, twoRegistrations. simpl app. solve_eventOk. Qed.

(** ** Lookup *)

Lemma findEntry_strip (ps : list (string * Peer)) (q1 q2 : string) :
  stripHyphens q1 = stripHyphens q2 -> findEntry ps q1 = findEntry ps q2.
Proof.
  intros E. induction ps as [|[k p] ps IH]; simpl; [reflexivity|].
  now rewrite E, IH.
Qed.

Lemma findEntry_Some (ps : list (string * Peer)) (q k : string) (p : Peer) :
  findEntry ps q = Some (k, p) ->
  (k, p) ∈ ps /\ stripHyphens k = stripHyphens q.
Proof.
  induction ps as [|[k' p'] ps IH]; simpl; [discriminate|].
  destruct (String.eqb_spec (stripHyphens k') (stripHyphens q)) as [E|Hne].
  - intros [= -> ->]. split; [left|exact E].
  - intros H. destruct (IH H). split; [now right|assumption].
Qed.

Lemma findEntry_None (ps : list (string * Peer)) (q : string) :
  findEntry ps q = None <->
  forall k p, (k, p) ∈ ps -> stripHyphens k <> stripHyphens q.
Proof.
  induction ps as [|[k' p'] ps IH]; simpl.
  - split; [|reflexivity]. intros _ k p H. now apply elem_of_nil in H.
  - destruct (String.eqb_spec (stripHyphens k') (stripHyphens q)) as [E|Hne]; split.
    + discriminate.
    + intros H. exfalso. apply (H k' p'); [left|exact E].
    + intros H k p [[= -> ->]|Hin]%elem_of_cons; [exact Hne|].
      eapply IH; eassumption.
    + intros H. apply IH. intros k p Hin. apply (H k p). now right.
Qed.

(** C8. Lookup ignores hyphens: two queries with the same characters once
    hyphens are removed get the same answer from [findPeerByConnectionId], in
    every registry, and a peer is found exactly when some registered
    identifier has the same hyphen-stripped characters as the query. *)
Theorem lookup_ignores_hyphens (ps : list (string * Peer)) (q1 q2 : string) :
  stripHyphens q1 = stripHyphens q2 ->
  findPeerByConnectionId ps q1 = findPeerByConnectionId ps q2 /\
  (is_Some (findPeerByConnectionId ps q1) <->
   exists k p, (k, p) ∈ ps /\ stripHyphens k = stripHyphens q1).
Proof.
  intros E. unfold findPeerByConnectionId. split.
  - now rewrite (findEntry_strip ps q1 q2 E).
  - destruct (findEntry ps q1) as [[k p]|] eqn:Hf; simpl; split.
    + intros _. exists k, p. now apply findEntry_Some.
    + intros _. now exists p.
    + intros [x Hx]. discriminate Hx.
    + intros (k & p & Hin & Hk). exfalso.
      exact (proj1 (findEntry_None ps q1) Hf k p Hin Hk).
Qed.

Lemma lookup_ignores_hyphens_witness :
  findPeerByConnectionId (peers (stateAfter twoRegistrations)) "123-456-789"
  = findPeerByConnectionId (peers (stateAfter twoRegistrations)) "123456789" /\
  (is_Some (findPeerByConnectionId (peers (stateAfter twoRegistrations)) "123-456-789") <->
   exists k p, (k, p) ∈ peers (stateAfter twoRegistrations) /\
               stripHyphens k = stripHyphens "123-456-789").
Proof.
  apply (lookup_ignores_hyphens (peers (stateAfter twoRegistrations))
           "123-456-789" "123456789").
  reflexivity.
Defined.

(** ** Identifier shape and uniqueness *)

(** C7. An identifier made by [generateConnectionId] from a number
    [Math.random] can give is three groups of three digits joined by hyphens,
    and in every reachable state two entries of the registry whose keys are
    equal once hyphens are removed are the same entry. *)
Theorem identifiers_shaped_and_unique (draw : N) (st : Server) :
  drawInRange draw -> reachable st ->
  threeDigitGroups (generateConnectionId draw) /\
  (forall i j k1 p1 k2 p2,
     peers st !! i = Some (k1, p1) -> peers st !! j = Some (k2, p2) ->
     stripHyphens k1 = stripHyphens k2 -> i = j).
Proof.
  intros Hd Hst. split; [apply generateConnectionId_shape, Hd|].
  destruct (reachable_wellFormed st Hst) as [Hnd Hk _].
  intros i j k1 p1 k2 p2 Hi Hj E.
  assert (Hi' : JsMap.keys (peers st) !! i = Some k1).
  { unfold JsMap.keys. now rewrite list_lookup_fmap, Hi. }
  assert (Hj' : JsMap.keys (peers st) !! j = Some k2).
  { unfold JsMap.keys. now rewrite list_lookup_fmap, Hj. }
  rewrite Forall_lookup in Hk.
  assert (k1 = k2) as -> by (apply isGrouped_inj; eauto).
  eapply NoDup_lookup; eassumption.
Qed.

Lemma identifiers_shaped_and_unique_witness :
  threeDigitGroups (generateConnectionId 123456789) /\
  (forall i j k1 p1 k2 p2,
     peers (stateAfter twoRegistrations) !! i = Some (k1, p1) ->
     peers (stateAfter twoRegistrations) !! j = Some (k2, p2) ->
     stripHyphens k1 = stripHyphens k2 -> i = j).
Proof.
  apply (identifiers_shaped_and_unique 123456789 (stateAfter twoRegistrations)).
  - unfold drawInRange. lia.
  - apply stateAfter_reachable, twoRegistrations_ok.
Defined.

(** ** Registration twice on one socket *)

Lemma formatId_nonempty (s : string) : formatId s <> "".
Proof.
  unfold formatId. destruct (slice 0 3 s); discriminate.
Qed.

Lemma chooseId_nonempty ps preferredId draws id :
  chooseId ps preferredId draws = Some id -> id <> "".
Proof.
  unfold chooseId. destruct (adoptPreferred ps preferredId) as [a|] eqn:Ha.
  - intros [= <-]. apply adoptPreferred_Some in Ha as (p & _ & _ & -> & _).
    apply formatId_nonempty.
  - intros (b & x & a & _ & _ & -> & _)%generateFresh_Some.
    apply formatId_nonempty.
Qed.

Lemma liveRegistration_intro socket st id :
  id <> "" -> connectionIdOf st !! socket = Some id ->
  JsMap.has (peers st) id = true ->
  liveRegistration socket st = Some id.
Proof.
  intros Hne Hc Hh. unfold liveRegistration. rewrite Hc, Hh. simpl.
  destruct (String.eqb_spec id "") as [->|_]; [now contradiction Hne|reflexivity].
Qed.

(** X23. A second [register] right after a first one on the same socket
    answers with the same identifier and changes nothing, whatever it asks
    for. *)
Lemma register_twice socket preferredId draws preferredId' draws' st o :
  register socket preferredId draws st = Some o ->
  register socket preferredId' draws' (next o)
  = Some {| next := next o; emitted := []; reply := reply o |}.
Proof.
  intros H. unfold register in H.
  destruct (liveRegistration socket st) as [id|] eqn:Hl.
  - injection H as <-. simpl. unfold register. now rewrite Hl.
  - destruct (chooseId (peers st) preferredId draws) as [id|] eqn:Hid; [|discriminate].
    injection H as <-. simpl. unfold register.
    rewrite (liveRegistration_intro socket _ id); [reflexivity| | |]; simpl.
    + eapply chooseId_nonempty, Hid.
    + apply lookup_insert_eq.
    + unfold JsMap.has. now rewrite get_set_eq.
Qed.

(** C9. [register] is idempotent per live socket: when the socket already
    has a [connectionId] that is still a key of the registry, [register]
    answers with that identifier, emits nothing and leaves the whole state,
    the registry included, as it was. *)
Theorem register_idempotent (st : Server) (socket id : string)
    (preferredId : option string) (draws : list N) :
  reachable st ->
  connectionIdOf st !! socket = Some id ->
  JsMap.has (peers st) id = true ->
  register socket preferredId draws st
  = Some {| next := st; emitted := []; reply := Some (Registered id) |}.
Proof.
  intros Hst Hc Hh. unfold register.
  rewrite (liveRegistration_intro socket st id); [reflexivity| |exact Hc|exact Hh].
  apply isGrouped_nonempty.
  exact (wf_sockets st (reachable_wellFormed st Hst) socket id Hc).
Qed.

Lemma register_idempotent_witness :
  register "socket-H" (Some "987654321") [555666777%N] (stateAfter twoRegistrations)
  = Some {| next := stateAfter twoRegistrations; emitted := [];
            reply := Some (Registered "123-456-789") |}.
Proof.
  apply (register_idempotent (stateAfter twoRegistrations) "socket-H" "123-456-789").
  - apply stateAfter_reachable, twoRegistrations_ok.
  - vm_compute. reflexivity.
  - vm_compute. reflexivity.
Defined.

(** ** Asking for a connection *)

Lemma findEntry_unique (st : Server) (q k : string) (p : Peer) :
  wellFormed st -> (k, p) ∈ peers st -> stripHyphens k = stripHyphens q ->
  findEntry (peers st) q = Some (k, p).
Proof.
  intros [Hnd Hk _] Hin E.
  destruct (findEntry (peers st) q) as [[k' p']|] eqn:Hf.
  - apply findEntry_Some in Hf as [Hin' E'].
    rewrite Forall_forall in Hk.
    assert (k' = k) as ->.
    { apply isGrouped_inj; [apply Hk|apply Hk|congruence];
        apply list_elem_of_fmap; [now exists (k', p')|now exists (k, p)]. }
    pose proof (elem_get_NoDup _ _ _ Hnd Hin) as H1.
    pose proof (elem_get_NoDup _ _ _ Hnd Hin') as H2. congruence.
  - exfalso. exact (proj1 (findEntry_None _ _) Hf k p Hin E).
Qed.

(** C4. [request-connection] in a reachable state. If no registered
    identifier equals the target once hyphens are removed from both, the
    caller is answered [PeerNotFound] and nothing changes or is sent. If the
    registered target is busy, the caller is answered [PeerBusy], likewise
    with no effect. Otherwise the request is stored under the fresh request
    id, the target's socket gets a connection-request with the requester's
    identifier, the display name and the password passed through, and the
    request id is the answer. *)
Theorem requestConnection_cases (st : Server) (socket targetId : string)
    (viewerName password : option string) (uuid : string) :
  reachable st ->
  let o := requestConnection socket targetId viewerName password uuid st in
  ((forall k p, (k, p) ∈ peers st -> stripHyphens k <> stripHyphens targetId) ->
   o = {| next := st; emitted := []; reply := Some (Failed PeerNotFound) |})
  /\
  (forall k p,
     (k, p) ∈ peers st -> stripHyphens k = stripHyphens targetId ->
     status p = Busy ->
     o = {| next := st; emitted := []; reply := Some (Failed PeerBusy) |})
  /\
  (forall k p,
     (k, p) ∈ peers st -> stripHyphens k = stripHyphens targetId ->
     status p = Available ->
     JsMap.get (pendingConnections (next o)) uuid
     = Some {| viewerSocketId := socket;
               viewerConnectionId := connectionIdOf st !! socket;
               hostSocketId := socketId p;
               hostConnectionId := k |} /\
     (forall r, r <> uuid ->
        JsMap.get (pendingConnections (next o)) r = JsMap.get (pendingConnections st) r) /\
     peers (next o) = peers st /\
     connectionIdOf (next o) = connectionIdOf st /\
     emitted o
     = [(socketId p,
         ConnectionRequestMsg uuid (connectionIdOf st !! socket)
           (orElse viewerName "Unknown")
           (if truthy password then password else None))] /\
     reply o = Some (Requested uuid)).
Proof.
  intros Hst o. pose proof (reachable_wellFormed st Hst) as Hwf.
  subst o. unfold requestConnection. split; [|split].
  - intros Hnone. apply findEntry_None in Hnone. now rewrite Hnone.
  - intros k p Hin E Hb. rewrite (findEntry_unique st targetId k p Hwf Hin E).
    unfold isBusy. now rewrite Hb.
  - intros k p Hin E Ha. rewrite (findEntry_unique st targetId k p Hwf Hin E).
    unfold isBusy. rewrite Ha. simpl.
    split; [apply get_set_eq|].
    split; [intros r Hr; now apply get_set_ne|].
    repeat split; reflexivity.
Qed.

Lemma requestConnection_cases_witness :
  requestConnection "socket-V" "999-999-999" None None "request-9"
    (stateAfter twoRegistrations)
  = {| next := stateAfter twoRegistrations; emitted := [];
       reply := Some (Failed PeerNotFound) |}
  /\
  requestConnection "socket-X" "123456789" None None "request-9"
    (stateAfter pairedSession)
  = {| next := stateAfter pairedSession; emitted := [];
       reply := Some (Failed PeerBusy) |}
  /\
  emitted (requestConnection "socket-V" "123456789" (Some "viewer") (Some "secret")
             "request-9" (stateAfter twoRegistrations))
  = [("socket-H",
      ConnectionRequestMsg "request-9" (Some "222-333-444") "viewer" (Some "secret"))].
Proof.
  split; [|split].
  - apply (requestConnection_cases (stateAfter twoRegistrations) "socket-V"
             "999-999-999" None None "request-9").
    + apply stateAfter_reachable, twoRegistrations_ok.
    + intros k p Hin. vm_compute in Hin.
      apply elem_of_cons in Hin as [[= -> ->]|Hin]; [vm_compute; discriminate|].
      apply elem_of_cons in Hin as [[= -> ->]|Hin]; [vm_compute; discriminate|].
      now apply elem_of_nil in Hin.
  - apply (requestConnection_cases (stateAfter pairedSession) "socket-X"
             "123456789" None None "request-9"
             (stateAfter_reachable _ pairedSession_ok))
      with (k := "123-456-789")
           (p := mkPeer "socket-H" Busy (Some "222-333-444")).
    + vm_compute. left.
    + reflexivity.
    + reflexivity.
  - apply (requestConnection_cases (stateAfter twoRegistrations) "socket-V"
             "123456789" (Some "viewer") (Some "secret") "request-9"
             (stateAfter_reachable _ twoRegistrations_ok))
      with (k := "123-456-789") (p := mkPeer "socket-H" Available None).
    + vm_compute. left.
    + reflexivity.
    + reflexivity.
Defined.

(** A socket that is neither the host nor the viewer pairs the two. *)
Example stranger_accepts :
  exists o,
    step (stateAfter requestPending) (ConnectionResponse "socket-X" "request-1" true)
    = Some o /\
    peers (next o)
    = [("123-456-789", mkPeer "socket-H" Busy (Some "222-333-444"));
       ("222-333-444", mkPeer "socket-V" Busy (Some "123-456-789"))] /\
    emitted o = [("socket-V", ConnectionAccepted "123-456-789")].
Proof. eexists. split; [reflexivity|]. split; vm_compute; reflexivity. Qed.

(** ** Answering a request *)

Lemma findBySocketId_Some (ps : list (string * Peer)) (sid : string) (p : Peer) :
  findBySocketId ps sid = Some p ->
  socketId p = sid /\ exists k, (k, p) ∈ ps.
Proof.
  unfold findBySocketId, JsMap.values. intros H.
  apply find_some in H as [Hin E]. apply String.eqb_eq in E. split; [exact E|].
  apply list_elem_of_In, list_elem_of_fmap in Hin as ([k p'] & -> & Hin).
  now exists k.
Qed.

Lemma findBySocketId_None (ps : list (string * Peer)) (sid : string) :
  findBySocketId ps sid = None <->
  forall k p, (k, p) ∈ ps -> socketId p <> sid.
Proof.
  unfold findBySocketId, JsMap.values. split.
  - intros H k p Hin E.
    pose proof (find_none _ _ H p) as Hn. simpl in Hn.
    rewrite (proj2 (String.eqb_eq _ _) E) in Hn.
    enough (false = true) by discriminate. symmetry. apply Hn.
    apply list_elem_of_In, list_elem_of_fmap. now exists (k, p).
  - intros H.
    destruct (find _ _) as [p|] eqn:Hf; [|reflexivity].
    apply find_some in Hf as [Hin E]. apply String.eqb_eq in E.
    apply list_elem_of_In, list_elem_of_fmap in Hin as ([k p'] & -> & Hin).
    exfalso. exact (H k p' Hin E).
Qed.

(** After an accepted response, the entries under the two identifiers the
    request recorded, when both are there, are busy and name each other. *)
Lemma accept_pairs_recorded (st : Server) (requestId : string) (request : Request)
    (viewerPeer hostEntry viewerEntry : Peer) (v : string) :
  JsMap.get (pendingConnections st) requestId = Some request ->
  findBySocketId (peers st) (viewerSocketId request) = Some viewerPeer ->
  viewerConnectionId request = Some v ->
  JsMap.get (peers st) (hostConnectionId request) = Some hostEntry ->
  JsMap.get (peers st) v = Some viewerEntry ->
  let st' := next (connectionResponse requestId true st) in
  JsMap.get (peers st') (hostConnectionId request)
  = Some (mkPeer (socketId hostEntry) Busy (Some v)) /\
  JsMap.get (peers st') v
  = Some (mkPeer (socketId viewerEntry) Busy (Some (hostConnectionId request))).
Proof.
  intros Hr Hv Hvid Hh Hve. unfold connectionResponse. rewrite Hr, Hv, Hvid. simpl.
  destruct (decide (hostConnectionId request = v)) as [E|Hne].
  - rewrite E in *. rewrite !get_adjust_eq, Hh. simpl.
    rewrite Hh in Hve. injection Hve as <-. split; reflexivity.
  - split.
    + rewrite get_adjust_ne by congruence. now rewrite get_adjust_eq, Hh.
    + rewrite get_adjust_eq, get_adjust_ne by exact Hne. now rewrite Hve.
Qed.

(** C5, as the code has it. [connection-response] for an unknown request id
    does nothing. For a request whose viewer socket belongs to no registered
    peer, it deletes the request and sends nothing. Otherwise it deletes the
    request and tells the viewer's socket: on reject, a rejection with the
    host's identifier, the registry staying as it is; on accept, an
    acceptance with the host's identifier, and the entries under the host
    and viewer identifiers recorded in the request, when both are
    registered, become busy with [connectedTo] naming each other. After any
    of these a further response to the same request id does nothing. *)
Theorem connectionResponse_cases (st : Server) (requestId : string) (accepted : bool) :
  let o := connectionResponse requestId accepted st in
  (JsMap.get (pendingConnections st) requestId = None -> o = silent st)
  /\
  (forall request,
     JsMap.get (pendingConnections st) requestId = Some request ->
     (forall k p, (k, p) ∈ peers st -> socketId p <> viewerSocketId request) ->
     o = silent (withPending st (JsMap.delete (pendingConnections st) requestId)))
  /\
  (forall request k viewerPeer,
     JsMap.get (pendingConnections st) requestId = Some request ->
     (k, viewerPeer) ∈ peers st -> socketId viewerPeer = viewerSocketId request ->
     pendingConnections (next o) = JsMap.delete (pendingConnections st) requestId /\
     reply o = None /\
     (accepted = false ->
      peers (next o) = peers st /\
      emitted o
      = [(viewerSocketId request, ConnectionRejected (hostConnectionId request))]) /\
     (accepted = true ->
      emitted o
      = [(viewerSocketId request, ConnectionAccepted (hostConnectionId request))] /\
      forall v hostEntry viewerEntry,
        viewerConnectionId request = Some v ->
        JsMap.get (peers st) (hostConnectionId request) = Some hostEntry ->
        JsMap.get (peers st) v = Some viewerEntry ->
        JsMap.get (peers (next o)) (hostConnectionId request)
        = Some (mkPeer (socketId hostEntry) Busy (Some v)) /\
        JsMap.get (peers (next o)) v
        = Some (mkPeer (socketId viewerEntry) Busy (Some (hostConnectionId request)))))
  /\
  (forall again, connectionResponse requestId again (next o) = silent (next o)).
Proof.
  intros o. split; [|split; [|split]].
  - intros Hn. subst o. unfold connectionResponse. now rewrite Hn.
  - intros request Hr Hnone. subst o. unfold connectionResponse. rewrite Hr.
    apply findBySocketId_None in Hnone. now rewrite Hnone.
  - intros request k viewerPeer Hr Hin Hsock.
    destruct (findBySocketId (peers st) (viewerSocketId request)) as [vp|] eqn:Hf.
    2:{ exfalso. exact (proj1 (findBySocketId_None _ _) Hf k viewerPeer Hin Hsock). }
    destruct (findBySocketId_Some _ _ _ Hf) as [Hvp _].
    assert (Ho : o = connectionResponse requestId accepted st) by reflexivity.
    unfold connectionResponse in Ho. rewrite Hr, Hf in Ho.
    split; [|split; [|split]].
    + rewrite Ho. now destruct accepted.
    + rewrite Ho. now destruct accepted.
    + intros ->. rewrite Ho. simpl. now rewrite Hvp.
    + intros ->. split; [rewrite Ho; simpl; now rewrite Hvp|].
      intros v hostEntry viewerEntry Hv Hh Hve.
      exact (accept_pairs_recorded st requestId request vp hostEntry viewerEntry v
               Hr Hf Hv Hh Hve).
  - intros again.
    assert (Hgone : JsMap.get (pendingConnections (next o)) requestId = None).
    { subst o. unfold connectionResponse.
      destruct (JsMap.get (pendingConnections st) requestId) as [request|] eqn:Hr;
        [|exact Hr].
      destruct (findBySocketId (peers st) (viewerSocketId request));
        [destruct accepted|]; simpl; apply get_delete_eq. }
    unfold connectionResponse at 1. now rewrite Hgone.
Qed.

Lemma connectionResponse_cases_witness :
  connectionResponse "request-7" true (stateAfter twoRegistrations)
  = silent (stateAfter twoRegistrations)
  /\
  connectionResponse "request-1" true (stateAfter strangerRequest)
  = silent (withPending (stateAfter strangerRequest) [])
  /\
  (peers (next (connectionResponse "request-1" false (stateAfter requestPending)))
   = peers (stateAfter requestPending) /\
   emitted (connectionResponse "request-1" false (stateAfter requestPending))
   = [("socket-V", ConnectionRejected "123-456-789")])
  /\
  (JsMap.get (peers (next (connectionResponse "request-1" true (stateAfter requestPending))))
     "123-456-789"
   = Some (mkPeer "socket-H" Busy (Some "222-333-444")) /\
   JsMap.get (peers (next (connectionResponse "request-1" true (stateAfter requestPending))))
     "222-333-444"
   = Some (mkPeer "socket-V" Busy (Some "123-456-789")))
  /\
  connectionResponse "request-1" false
    (next (connectionResponse "request-1" true (stateAfter requestPending)))
  = silent (next (connectionResponse "request-1" true (stateAfter requestPending))).
Proof.
  split; [|split; [|split; [|split]]].
  - apply (proj1 (connectionResponse_cases (stateAfter twoRegistrations)
                    "request-7" true)).
    reflexivity.
  - apply (proj1 (proj2 (connectionResponse_cases (stateAfter strangerRequest)
                           "request-1" true))
             (mkRequest "socket-V" None "socket-H" "123-456-789")).
    + reflexivity.
    + intros k p Hin. vm_compute in Hin.
      apply elem_of_cons in Hin as [[= -> ->]|Hin]; [discriminate|].
      now apply elem_of_nil in Hin.
  - apply (proj1 (proj2 (proj2 (connectionResponse_cases (stateAfter requestPending)
                                  "request-1" false)))
             (mkRequest "socket-V" (Some "222-333-444") "socket-H" "123-456-789")
             "222-333-444" (mkPeer "socket-V" Available None)).
    + reflexivity.
    + vm_compute. right. left.
    + reflexivity.
    + reflexivity.
  - destruct (proj1 (proj2 (proj2 (connectionResponse_cases (stateAfter requestPending)
                                     "request-1" true)))
                (mkRequest "socket-V" (Some "222-333-444") "socket-H" "123-456-789")
                "222-333-444" (mkPeer "socket-V" Available None)
                ltac:(reflexivity) ltac:(vm_compute; right; left) ltac:(reflexivity))
      as (_ & _ & _ & Hacc).
    destruct (Hacc eq_refl) as [_ Hpair].
    exact (Hpair "222-333-444" (mkPeer "socket-H" Available None)
             (mkPeer "socket-V" Available None) eq_refl eq_refl eq_refl).
  - apply (proj2 (proj2 (proj2 (connectionResponse_cases (stateAfter requestPending)
                                  "request-1" true)))).
Defined.

(** C5, where the claim fails. A socket asks for the host before it
    registers, so the request records no viewer identifier. Once it has
    registered, the host's acceptance finds the viewer by its socket and
    notifies it, but the viewer stays available and the host becomes busy
    with [connectedTo] unset. *)
Lemma accept_early_request_half_pairs :
  reachable (stateAfter earlyRequest) /\
  JsMap.get (pendingConnections (stateAfter earlyRequest)) "request-1"
  = Some (mkRequest "socket-V" None "socket-H" "123-456-789") /\
  findBySocketId (peers (stateAfter earlyRequest)) "socket-V"
  = Some (mkPeer "socket-V" Available None) /\
  peers (next (connectionResponse "request-1" true (stateAfter earlyRequest)))
  = [("123-456-789", mkPeer "socket-H" Busy None);
     ("222-333-444", mkPeer "socket-V" Available None)] /\
  emitted (connectionResponse "request-1" true (stateAfter earlyRequest))
  = [("socket-V", ConnectionAccepted "123-456-789")].
Proof.
  split; [|repeat split; vm_compute; reflexivity].
  apply stateAfter_reachable. unfold earlyRequest. solve_eventOk.
Qed.

(** ** The grace-period task *)

Lemma findBySocketId_adjust_None (f : Peer -> Peer) (ps : list (string * Peer))
    (k sid : string) :
  (forall p, socketId (f p) = socketId p) ->
  findBySocketId (JsMap.adjust f ps k) sid = None <-> findBySocketId ps sid = None.
Proof.
  intros Hf. rewrite !findBySocketId_None. split.
  - intros H k' p' Hin E.
    assert (exists q, (k', q) ∈ JsMap.adjust f ps k /\ socketId q = socketId p')
      as (q & Hq & Hs).
    { clear H E. induction ps as [|[k0 p0] ps IH]; [now apply elem_of_nil in Hin|].
      simpl. apply elem_of_cons in Hin as [[= -> ->]|Hin].
      - destruct (String.eqb k0 k).
        + exists (f p0). split; [left|apply Hf].
        + exists p0. split; [left|reflexivity].
      - destruct (String.eqb k0 k).
        + exists p'. split; [now right|reflexivity].
        + destruct (IH Hin) as (q & Hq & Hs). exists q. split; [now right|exact Hs]. }
    apply (H k' q Hq). congruence.
  - intros H k' p' [Hin|(v & Hin & _ & ->)]%elem_adjust; [eauto|].
    rewrite Hf. eauto.
Qed.

Section Reaping.
Variables (ps : list (string * Peer)) (disconnectedId : string).

Lemma reapRequests_kept (requests : list (string * Request)) rid rq :
  (rid, rq) ∈ (reapRequests ps disconnectedId requests).1 <->
  (rid, rq) ∈ requests /\ hostConnectionId rq <> disconnectedId /\
  viewerConnectionId rq <> Some disconnectedId.
Proof.
  induction requests as [|[r0 q0] requests IH]; simpl.
  - split; [intros H; now apply elem_of_nil in H|intros [H _]; now apply elem_of_nil in H].
  - destruct (reapRequests ps disconnectedId requests) as [kept out] eqn:Hre.
    simpl in IH. rewrite elem_of_cons.
    destruct (String.eqb_spec (hostConnectionId q0) disconnectedId) as [Eh|Nh].
    + destruct (findBySocketId ps (viewerSocketId q0)); simpl; rewrite IH;
        split; try tauto; intros [[[= -> ->]|H] [H1 H2]]; tauto.
    + destruct (viewerConnectionId q0) as [v|] eqn:Ev.
      * destruct (String.eqb_spec v disconnectedId) as [Evd|Nvd]; simpl.
        -- rewrite IH. split; [tauto|].
           intros [[[= -> ->]|H] [H1 H2]]; [|tauto]. subst v. congruence.
        -- rewrite elem_of_cons, IH. split.
           ++ intros [[= -> ->]|H]; [|tauto]. rewrite Ev.
              split; [now left|]. split; [exact Nh|congruence].
           ++ intros [[[= -> ->]|H] [H1 H2]]; [now left|right; tauto].
      * simpl. rewrite elem_of_cons, IH. split.
        -- intros [[= -> ->]|H]; [|tauto]. rewrite Ev.
           split; [now left|]. split; [exact Nh|congruence].
        -- intros [[[= -> ->]|H] [H1 H2]]; [now left|right; tauto].
Qed.

Lemma reapRequests_rejects (requests : list (string * Request)) rid rq viewerPeer :
  (rid, rq) ∈ requests -> hostConnectionId rq = disconnectedId ->
  findBySocketId ps (viewerSocketId rq) = Some viewerPeer ->
  (viewerSocketId rq, ConnectionRejectedError PeerDisconnectedReason)
  ∈ (reapRequests ps disconnectedId requests).2.
Proof.
  intros Hin Hh Hv. induction requests as [|[r0 q0] requests IH];
    [now apply elem_of_nil in Hin|].
  simpl. destruct (reapRequests ps disconnectedId requests) as [kept out].
  simpl in IH. apply elem_of_cons in Hin as [[= <- <-]|Hin].
  - rewrite (proj2 (String.eqb_eq _ _) Hh), Hv. simpl.
    destruct (findBySocketId_Some _ _ _ Hv) as [-> _]. left.
  - destruct (String.eqb (hostConnectionId q0) disconnectedId).
    + destruct (findBySocketId ps (viewerSocketId q0)); simpl; [right|]; auto.
    + destruct (viewerConnectionId q0) as [v|]; [destruct (String.eqb v disconnectedId)|];
        simpl; auto.
Qed.

Lemma reapRequests_only_rejects (requests : list (string * Request)) s m :
  (s, m) ∈ (reapRequests ps disconnectedId requests).2 ->
  m = ConnectionRejectedError PeerDisconnectedReason /\
  exists rid rq, (rid, rq) ∈ requests /\ hostConnectionId rq = disconnectedId /\
                 viewerSocketId rq = s.
Proof.
  induction requests as [|[r0 q0] requests IH]; simpl;
    [intros H; now apply elem_of_nil in H|].
  destruct (reapRequests ps disconnectedId requests) as [kept out]. simpl in IH.
  assert (Hlater : (s, m) ∈ out ->
            m = ConnectionRejectedError PeerDisconnectedReason /\
            exists rid rq, (rid, rq) ∈ (r0, q0) :: requests /\
                           hostConnectionId rq = disconnectedId /\
                           viewerSocketId rq = s).
  { intros H. destruct (IH H) as (-> & rid & rq & Hin & Hh & Hs).
    split; [reflexivity|]. exists rid, rq. split; [now right|auto]. }
  destruct (String.eqb_spec (hostConnectionId q0) disconnectedId) as [Eh|Nh].
  - destruct (findBySocketId ps (viewerSocketId q0)) as [vp|] eqn:Hv; simpl; [|exact Hlater].
    intros [[= -> ->]|H]%elem_of_cons; [|auto].
    split; [reflexivity|]. exists r0, q0. split; [left|]. split; [exact Eh|].
    now destruct (findBySocketId_Some _ _ _ Hv) as [-> _].
  - destruct (viewerConnectionId q0) as [v|]; [destruct (String.eqb v disconnectedId)|];
      simpl; exact Hlater.
Qed.

End Reaping.

(** What the task does once it has found the entry with the captured
    socket: the notice to the paired peer, if lookup finds one, then the
    loop over the pending requests, then the deletion. *)
Lemma graceTask_reclaim (st : Server) (socket disconnectedId : string) (peer : Peer) :
  JsMap.get (peers st) disconnectedId = Some peer ->
  socketId peer = socket ->
  exists ps1 out1,
    ((exists other k q,
        connectedTo peer = Some other /\ other <> "" /\
        findEntry (peers st) other = Some (k, q) /\
        ps1 = JsMap.adjust markAvailable (peers st) k /\
        out1 = [(socketId q, PeerDisconnected disconnectedId)])
     \/
     (ps1 = peers st /\ out1 = [] /\
      forall other, connectedTo peer = Some other -> other <> "" ->
                    findEntry (peers st) other = None)) /\
    graceTask socket disconnectedId st
    = {| next :=
           {| peers := JsMap.delete ps1 disconnectedId;
              pendingConnections :=
                (reapRequests ps1 disconnectedId (pendingConnections st)).1;
              connectionIdOf := connectionIdOf st;
              graceTimers := graceTimers st |};
         emitted := out1 ++ (reapRequests ps1 disconnectedId (pendingConnections st)).2;
         reply := None |}.
Proof.
  intros Hg Hs. unfold graceTask. rewrite Hg, Hs, eqb_refl_str. simpl.
  destruct (connectedTo peer) as [other|] eqn:Hc; simpl.
  - destruct (String.eqb_spec other "") as [->|Hne]; simpl.
    + exists (peers st), []. split.
      * right. repeat split. intros other [= <-] H. now contradiction H.
      * now destruct (reapRequests (peers st) disconnectedId (pendingConnections st)).
    + destruct (findEntry (peers st) other) as [[k q]|] eqn:Hf.
      * exists (JsMap.adjust markAvailable (peers st) k),
               [(socketId q, PeerDisconnected disconnectedId)]. split.
        -- left. exists other, k, q. auto.
        -- now destruct (reapRequests _ disconnectedId (pendingConnections st)).
      * exists (peers st), []. split.
        -- right. repeat split. now intros o' [= <-] _.
        -- now destruct (reapRequests (peers st) disconnectedId (pendingConnections st)).
  - exists (peers st), []. split.
    + right. repeat split. intros other H. discriminate H.
    + now destruct (reapRequests (peers st) disconnectedId (pendingConnections st)).
Qed.

Lemma takeTimer_fires (st : Server) (disconnectedId socket : string) (o : Outcome) :
  step st (GraceElapsed disconnectedId socket) = Some o ->
  exists timers,
    o = graceTask socket disconnectedId
          {| peers := peers st; pendingConnections := pendingConnections st;
             connectionIdOf := connectionIdOf st; graceTimers := timers |}.
Proof.
  simpl. destruct (takeTimer (disconnectedId, socket) (graceTimers st)) as [tm|];
    [|discriminate].
  intros [= <-]. now exists tm.
Qed.

(** C6, as the code has it. The grace-period task fires in a reachable state
    in which the entry under the captured identifier has the captured
    socket. Then the registered peer that the entry's [connectedTo] names is
    sent peer-disconnected and is reset to available with [connectedTo]
    null; every pending request whose host identifier is the captured one is
    deleted, its viewer being sent a rejection with the disconnect reason
    when the viewer's socket belongs to a registered peer; every pending
    request whose viewer identifier is the captured one is deleted; no other
    request is deleted and nothing else is sent; and the entry itself is
    deleted. *)
Theorem grace_reclaims (st : Server) (disconnectedId socket : string) (peer : Peer)
    (o : Outcome) :
  reachable st ->
  step st (GraceElapsed disconnectedId socket) = Some o ->
  JsMap.get (peers st) disconnectedId = Some peer ->
  socketId peer = socket ->
  (forall other k q,
     connectedTo peer = Some other ->
     (k, q) ∈ peers st -> stripHyphens k = stripHyphens other ->
     (socketId q, PeerDisconnected disconnectedId) ∈ emitted o /\
     (k <> disconnectedId ->
      JsMap.get (peers (next o)) k = Some (mkPeer (socketId q) Available None)))
  /\
  (forall rid rq k viewerPeer,
     (rid, rq) ∈ pendingConnections st -> hostConnectionId rq = disconnectedId ->
     (k, viewerPeer) ∈ peers st -> socketId viewerPeer = viewerSocketId rq ->
     (viewerSocketId rq, ConnectionRejectedError PeerDisconnectedReason) ∈ emitted o)
  /\
  (forall rid rq,
     (rid, rq) ∈ pendingConnections (next o) <->
     (rid, rq) ∈ pendingConnections st /\
     hostConnectionId rq <> disconnectedId /\
     viewerConnectionId rq <> Some disconnectedId)
  /\
  (forall s m,
     (s, m) ∈ emitted o ->
     (m = PeerDisconnected disconnectedId /\
      exists other k q, connectedTo peer = Some other /\ (k, q) ∈ peers st /\
                        stripHyphens k = stripHyphens other /\ s = socketId q)
     \/
     (m = ConnectionRejectedError PeerDisconnectedReason /\
      exists rid rq, (rid, rq) ∈ pendingConnections st /\
                     hostConnectionId rq = disconnectedId /\ viewerSocketId rq = s))
  /\
  JsMap.get (peers (next o)) disconnectedId = None.
Proof.
  intros Hst Hstep Hg Hs.
  pose proof (reachable_wellFormed st Hst) as Hwf.
  destruct (takeTimer_fires _ _ _ _ Hstep) as [timers ->].
  set (st0 := {| peers := peers st; pendingConnections := pendingConnections st;
                 connectionIdOf := connectionIdOf st; graceTimers := timers |}).
  destruct (graceTask_reclaim st0 socket disconnectedId peer Hg Hs)
    as (ps1 & out1 & Hcase & ->).
  simpl.
  assert (Hfind : forall sid, findBySocketId ps1 sid = None <->
                              findBySocketId (peers st) sid = None).
  { intros sid. destruct Hcase as [(other & k & q & _ & _ & _ & -> & _)|(-> & _)];
      [|reflexivity].
    now apply findBySocketId_adjust_None. }
  split; [|split; [|split; [|split]]].
  - intros other k q Hc Hin E.
    assert (Hne : other <> "").
    { intros ->. destruct Hwf as [_ Hk _]. rewrite Forall_forall in Hk.
      assert (Hgk : isGrouped k) by (apply Hk, list_elem_of_fmap; now exists (k, q)).
      destruct Hgk as [Hl _]. rewrite E in Hl. discriminate Hl. }
    pose proof (findEntry_unique st other k q Hwf Hin E) as Hf.
    destruct Hcase as [(other' & k' & q' & Hc' & _ & Hf' & -> & ->)|(-> & -> & Hnone)].
    + rewrite Hc in Hc'. injection Hc' as <-. simpl in Hf'.
      rewrite Hf in Hf'. injection Hf' as <- <-. split.
      * apply elem_of_app. left. left.
      * intros Hk. rewrite get_delete_ne by congruence.
        rewrite get_adjust_eq. unfold st0. simpl.
        destruct Hwf as [Hnd _ _].
        now rewrite (elem_get_NoDup _ _ _ Hnd Hin).
    + exfalso. specialize (Hnone other Hc Hne). simpl in Hnone. congruence.
  - intros rid rq k viewerPeer Hin Hh Hvin Hvs.
    apply elem_of_app. right.
    destruct (findBySocketId ps1 (viewerSocketId rq)) as [vp|] eqn:Hv.
    + eapply reapRequests_rejects; eassumption.
    + exfalso. apply Hfind in Hv.
      exact (proj1 (findBySocketId_None _ _) Hv k viewerPeer Hvin Hvs).
  - intros rid rq. apply reapRequests_kept.
  - intros s m [Hin|Hin]%elem_of_app.
    + left. destruct Hcase as [(other & k & q & Hc & _ & Hf & _ & ->)|(_ & -> & _)];
        [|now apply elem_of_nil in Hin].
      apply elem_of_cons in Hin as [[= -> ->]|Hin]; [|now apply elem_of_nil in Hin].
      split; [reflexivity|]. simpl in Hf. apply findEntry_Some in Hf as [Hq E].
      exists other, k, q. auto.
    + right. eapply reapRequests_only_rejects, Hin.
  - apply get_delete_eq.
Qed.

Lemma hostDrops_ok : Forall eventOk hostDrops.
Proof. unfold hostDrops, twoRegistrations. simpl app. solve_eventOk. Qed.

Lemma grace_reclaims_witness :
  ("socket-V", PeerDisconnected "123-456-789")
  ∈ emitted (outcomeOf (stateAfter hostDrops) (GraceElapsed "123-456-789" "socket-H")) /\
  ("socket-W", ConnectionRejectedError PeerDisconnectedReason)
  ∈ emitted (outcomeOf (stateAfter hostDrops) (GraceElapsed "123-456-789" "socket-H")) /\
  JsMap.get
    (peers (next (outcomeOf (stateAfter hostDrops)
                    (GraceElapsed "123-456-789" "socket-H"))))
    "222-333-444"
  = Some (mkPeer "socket-V" Available None) /\
  JsMap.get
    (peers (next (outcomeOf (stateAfter hostDrops)
                    (GraceElapsed "123-456-789" "socket-H"))))
    "123-456-789"
  = None.
Proof.
  destruct (grace_reclaims (stateAfter hostDrops) "123-456-789" "socket-H"
              (mkPeer "socket-H" Busy (Some "222-333-444"))
              (outcomeOf (stateAfter hostDrops) (GraceElapsed "123-456-789" "socket-H"))
              (stateAfter_reachable _ hostDrops_ok)
              ltac:(vm_compute; reflexivity) ltac:(vm_compute; reflexivity)
              ltac:(reflexivity))
    as (Hpaired & Hhost & _ & _ & Hgone).
  destruct (Hpaired "222-333-444" "222-333-444" (mkPeer "socket-V" Busy (Some "123-456-789"))
              ltac:(reflexivity) ltac:(solve_elem) ltac:(reflexivity))
    as [Hnotice Hreset].
  split; [exact Hnotice|]. split; [|split; [|exact Hgone]].
  - exact (Hhost "request-2"
             (mkRequest "socket-W" (Some "333-444-555") "socket-H" "123-456-789")
             "333-444-555" (mkPeer "socket-W" Available None)
             ltac:(solve_elem) ltac:(reflexivity)
             ltac:(solve_elem) ltac:(reflexivity)).
  - apply Hreset. discriminate.
Defined.

(** C6, where the claim fails. A socket that has not registered asks for the
    host and the host's socket disconnects. When the task fires, the request,
    whose host identifier is the disconnected one, is deleted and nothing at
    all is sent: its viewer gets no rejection. *)
Lemma stranger_request_reaped_silently :
  reachable (stateAfter hostDropsOnStranger) /\
  JsMap.get (peers (stateAfter hostDropsOnStranger)) "123-456-789"
  = Some (mkPeer "socket-H" Available None) /\
  pendingConnections (stateAfter hostDropsOnStranger)
  = [("request-1", mkRequest "socket-V" None "socket-H" "123-456-789")] /\
  step (stateAfter hostDropsOnStranger) (GraceElapsed "123-456-789" "socket-H")
  = Some {| next :=
              {| peers := []; pendingConnections := [];
                 connectionIdOf := connectionIdOf (stateAfter hostDropsOnStranger);
                 graceTimers := [] |};
            emitted := [];
            reply := None |}.
Proof.
  split; [|repeat split; vm_compute; reflexivity].
  apply stateAfter_reachable.
  unfold hostDropsOnStranger, strangerRequest. simpl app. solve_eventOk.
Qed.

(** ** Choosing the identifier *)

(** In a well-formed registry the test [peers.has(formatted)] on a preferred
    id of nine characters says whether some registered identifier has the
    same characters. *)
Lemma preferred_held_iff (st : Server) (p : string) :
  wellFormed st -> String.length (stripHyphens p) = 9 ->
  JsMap.has (peers st) (formatId (stripHyphens p)) = false <->
  forall k v, (k, v) ∈ peers st -> stripHyphens k <> stripHyphens p.
Proof.
  intros [_ Hk _] Hl. rewrite Forall_forall in Hk.
  pose proof (stripHyphens_formatId (stripHyphens p) (stripHyphens_idem p) Hl) as Hs.
  split.
  - intros Hh k v Hin E.
    assert (Hkeys : k ∈ JsMap.keys (peers st))
      by (apply list_elem_of_fmap; now exists (k, v)).
    destruct (Hk k Hkeys) as [_ Hfmt]. rewrite E in Hfmt.
    apply has_true_keys in Hkeys. congruence.
  - intros Hnone.
    destruct (JsMap.has (peers st) (formatId (stripHyphens p))) eqn:Hh; [|reflexivity].
    apply has_true_keys, list_elem_of_fmap in Hh as ([k v] & E & Hin). simpl in E.
    exfalso. apply (Hnone k v Hin). now rewrite <- E, Hs.
Qed.

Lemma adoptPreferred_None_iff (ps : list (string * Peer)) (preferredId : option string) :
  adoptPreferred ps preferredId = None <->
  preferredId = None \/
  exists p, preferredId = Some p /\
            (String.length (stripHyphens p) <> 9 \/
             JsMap.has ps (formatId (stripHyphens p)) = true).
Proof.
  unfold adoptPreferred. destruct preferredId as [p|]; [|split; auto].
  split.
  - intros H. right. exists p. split; [reflexivity|].
    destruct (Nat.eqb_spec (String.length (stripHyphens p)) 9) as [Hl|Hl]; [|now left].
    destruct (JsMap.has ps (formatId (stripHyphens p))); [now right|].
    destruct (truthy (Some p)) eqn:Ht; [discriminate H|].
    simpl in Ht. destruct (String.eqb_spec p "") as [E|E];
      [rewrite E in Hl; discriminate Hl|discriminate Ht].
  - intros [H|(p' & Hp & H)]; [discriminate H|].
    injection Hp as Hp. subst p'.
    destruct (truthy (Some p)); [|reflexivity].
    destruct H as [Hl|Hh].
    + now destruct (Nat.eqb_spec (String.length (stripHyphens p)) 9).
    + rewrite Hh. now rewrite andb_false_r.
Qed.

(** The state and answer of a [register] run that enters [id] for [socket]. *)
Lemma register_installs (st : Server) (socket id : string)
    (preferredId : option string) (draws : list N) :
  liveRegistration socket st = None ->
  chooseId (peers st) preferredId draws = Some id ->
  register socket preferredId draws st = Some (registeredAs st socket id).
Proof.
  intros Hl Hc. unfold register, registeredAs. rewrite Hl, Hc.
  rewrite set_fresh by (eapply chooseId_not_held, Hc). reflexivity.
Qed.

(** C2, as the code has it. A socket without a live registration calls
    [register] in a reachable state. If a preferred id is given that has
    exactly nine characters once hyphens are removed (digits or not) and no
    registered identifier has the same characters, it is adopted, in grouped
    form, for the new entry. In every other case (no preferred id, not nine
    characters, or held) the identifier is generated: the numbers drawn are
    tried in order, the first whose identifier is not a key of the registry
    is taken, and as long as every draw collides the loop goes on. *)
Theorem register_chooses (st : Server) (socket : string)
    (preferredId : option string) (draws : list N) :
  reachable st ->
  liveRegistration socket st = None ->
  (forall p,
     preferredId = Some p -> String.length (stripHyphens p) = 9 ->
     (forall k v, (k, v) ∈ peers st -> stripHyphens k <> stripHyphens p) ->
     register socket preferredId draws st
     = Some (registeredAs st socket (formatId (stripHyphens p))))
  /\
  (preferredId = None \/
   (exists p, preferredId = Some p /\
      (String.length (stripHyphens p) <> 9 \/
       exists k v, (k, v) ∈ peers st /\ stripHyphens k = stripHyphens p)) ->
   (forall before draw after,
      draws = before ++ draw :: after ->
      Forall (fun d => JsMap.has (peers st) (generateConnectionId d) = true) before ->
      JsMap.has (peers st) (generateConnectionId draw) = false ->
      register socket preferredId draws st
      = Some (registeredAs st socket (generateConnectionId draw))) /\
   (Forall (fun d => JsMap.has (peers st) (generateConnectionId d) = true) draws ->
    register socket preferredId draws st = None)).
Proof.
  intros Hst Hlive. pose proof (reachable_wellFormed st Hst) as Hwf. split.
  - intros p -> Hl Hfree. apply register_installs; [exact Hlive|].
    apply (preferred_held_iff st p Hwf Hl) in Hfree.
    unfold chooseId, adoptPreferred. rewrite Hl, Hfree. simpl.
    destruct (String.eqb_spec p "") as [->|_]; [discriminate Hl|reflexivity].
  - intros Hother.
    assert (Ha : adoptPreferred (peers st) preferredId = None).
    { apply adoptPreferred_None_iff.
      destruct Hother as [H|(p & Hp & [Hl|(k & v & Hin & E)])]; [now left| |].
      - right. exists p. auto.
      - right. exists p. split; [exact Hp|].
        destruct (Nat.eq_dec (String.length (stripHyphens p)) 9) as [Hl|Hl]; [|now left].
        right. destruct (JsMap.has (peers st) (formatId (stripHyphens p))) eqn:Hh;
          [reflexivity|].
        exfalso. exact (proj1 (preferred_held_iff st p Hwf Hl) Hh k v Hin E). }
    split.
    + intros before draw after -> Hb Hd. apply register_installs; [exact Hlive|].
      unfold chooseId. rewrite Ha. now apply generateFresh_first.
    + intros Hall. unfold register, chooseId. rewrite Hlive, Ha.
      assert (Hg : generateFresh (peers st) draws = None).
      { induction Hall as [|d ds Hd _ IH]; simpl; [reflexivity|]. now rewrite Hd. }
      now rewrite Hg.
Qed.

Lemma register_chooses_witness :
  register "socket-W" (Some "987-654-321") [] (stateAfter twoRegistrations)
  = Some (registeredAs (stateAfter twoRegistrations) "socket-W" "987-654-321")
  /\
  register "socket-W" (Some "123456789") [222333444%N; 444555666%N]
    (stateAfter twoRegistrations)
  = Some (registeredAs (stateAfter twoRegistrations) "socket-W" "444-555-666")
  /\
  register "socket-W" None [222333444%N] (stateAfter twoRegistrations) = None.
Proof.
  pose proof (stateAfter_reachable _ twoRegistrations_ok) as Hst.
  split; [|split].
  - apply (proj1 (register_chooses (stateAfter twoRegistrations) "socket-W"
                    (Some "987-654-321") [] Hst ltac:(reflexivity))
             "987-654-321" ltac:(reflexivity) ltac:(reflexivity)).
    intros k v Hin. vm_compute in Hin.
    apply elem_of_cons in Hin as [[= -> ->]|Hin]; [vm_compute; discriminate|].
    apply elem_of_cons in Hin as [[= -> ->]|Hin]; [vm_compute; discriminate|].
    now apply elem_of_nil in Hin.
  - apply (proj1 (proj2 (register_chooses (stateAfter twoRegistrations) "socket-W"
                           (Some "123456789") [222333444%N; 444555666%N]
                           Hst ltac:(reflexivity))
                   ltac:(right; exists "123456789"; split; [reflexivity|];
                         right; exists "123-456-789", (mkPeer "socket-H" Available None);
                         split; [solve_elem|reflexivity]))
             [222333444%N] 444555666%N [] ltac:(reflexivity)).
    + apply Forall_cons_2; [reflexivity|apply Forall_nil_2].
    + reflexivity.
  - apply (proj2 (proj2 (register_chooses (stateAfter twoRegistrations) "socket-W"
                           None [222333444%N] Hst ltac:(reflexivity))
                   ltac:(left; reflexivity))).
    apply Forall_cons_2; [reflexivity|apply Forall_nil_2].
Defined.

(** C2, where the claim fails. A preferred id of nine letters is not nine
    digits, and it is adopted all the same; no number is drawn. *)
Lemma register_adopts_letters :
  allDigits (stripHyphens "abcdefghi") = false /\
  liveRegistration "socket-H" initial = None /\
  register "socket-H" (Some "abcdefghi") [123456789%N] initial
  = Some (registeredAs initial "socket-H" "abc-def-ghi") /\
  generateConnectionId 123456789 = "123-456-789".
Proof. repeat split; vm_compute; reflexivity. Qed.

(** ** Status and pairing *)

(** C1, as the code has it. In every reachable state a peer whose
    [connectedTo] is set is busy, that is, an available peer has
    [connectedTo] null, and every handler and the grace-period task keep it
    so. An accepted [connection-response] leaves the entries under the two
    identifiers recorded in the request, when both are registered, busy and
    naming each other. *)
Theorem pairing_state (st : Server) :
  reachable st ->
  peersConsistent st /\
  (forall e o, step st e = Some o -> peersConsistent (next o)) /\
  (forall requestId request viewerPeer v hostEntry viewerEntry,
     JsMap.get (pendingConnections st) requestId = Some request ->
     findBySocketId (peers st) (viewerSocketId request) = Some viewerPeer ->
     viewerConnectionId request = Some v ->
     JsMap.get (peers st) (hostConnectionId request) = Some hostEntry ->
     JsMap.get (peers st) v = Some viewerEntry ->
     forall o, step st (ConnectionResponse (socketId hostEntry) requestId true) = Some o ->
     JsMap.get (peers (next o)) (hostConnectionId request)
     = Some (mkPeer (socketId hostEntry) Busy (Some v)) /\
     JsMap.get (peers (next o)) v
     = Some (mkPeer (socketId viewerEntry) Busy (Some (hostConnectionId request)))).
Proof.
  intros Hst. pose proof (reachable_peersConsistent st Hst) as Hc.
  split; [exact Hc|]. split.
  - intros e o Hstep. eapply peersConsistent_step; eassumption.
  - intros requestId request viewerPeer v hostEntry viewerEntry Hr Hv Hvid Hh Hve o Hstep.
    simpl in Hstep. injection Hstep as <-.
    eapply accept_pairs_recorded; eassumption.
Qed.

Lemma requestPending_ok : Forall eventOk requestPending.
Proof. unfold requestPending, twoRegistrations. simpl app. solve_eventOk. Qed.

Lemma pairing_state_witness :
  peersConsistent (stateAfter requestPending) /\
  JsMap.get
    (peers (next (outcomeOf (stateAfter requestPending)
                    (ConnectionResponse "socket-H" "request-1" true))))
    "123-456-789"
  = Some (mkPeer "socket-H" Busy (Some "222-333-444")) /\
  JsMap.get
    (peers (next (outcomeOf (stateAfter requestPending)
                    (ConnectionResponse "socket-H" "request-1" true))))
    "222-333-444"
  = Some (mkPeer "socket-V" Busy (Some "123-456-789")).
Proof.
  destruct (pairing_state (stateAfter requestPending)
              (stateAfter_reachable _ requestPending_ok))
    as (Hc & _ & Hpair).
  split; [exact Hc|].
  exact (Hpair "request-1"
           (mkRequest "socket-V" (Some "222-333-444") "socket-H" "123-456-789")
           (mkPeer "socket-V" Available None) "222-333-444"
           (mkPeer "socket-H" Available None) (mkPeer "socket-V" Available None)
           eq_refl eq_refl eq_refl eq_refl eq_refl
           (outcomeOf (stateAfter requestPending)
              (ConnectionResponse "socket-H" "request-1" true))
           eq_refl).
Defined.

(** C1, where the claim fails. After the accepted early request the host is
    busy although its [connectedTo] is not set. After two hosts have accepted
    the same viewer, the first host and the viewer are both busy and the host
    names the viewer, but the viewer names the second host. Both states are
    reachable. *)
Lemma busy_without_partner_and_one_sided_pairing :
  (reachable (stateAfter earlyRequestAccepted) /\
   JsMap.get (peers (stateAfter earlyRequestAccepted)) "123-456-789"
   = Some (mkPeer "socket-H" Busy None))
  /\
  (reachable (stateAfter twoHostsAccept) /\
   JsMap.get (peers (stateAfter twoHostsAccept)) "111-111-111"
   = Some (mkPeer "socket-A" Busy (Some "333-333-333")) /\
   JsMap.get (peers (stateAfter twoHostsAccept)) "333-333-333"
   = Some (mkPeer "socket-V" Busy (Some "222-222-222"))).
Proof.
  split; (split; [apply stateAfter_reachable|repeat split; vm_compute; reflexivity]).
  - unfold earlyRequestAccepted, earlyRequest. simpl app. solve_eventOk.
  - unfold twoHostsAccept. solve_eventOk.
Qed.

(** ** Reconnecting within the grace period *)

(** The task does nothing when the entry under the captured identifier has
    another socket. *)
Lemma graceTask_skips_other_socket (st : Server) (socket disconnectedId : string)
    (peer : Peer) :
  JsMap.get (peers st) disconnectedId = Some peer ->
  socketId peer <> socket ->
  graceTask socket disconnectedId st = silent st.
Proof.
  intros Hg Hne. unfold graceTask. rewrite Hg.
  now rewrite (proj2 (String.eqb_neq _ _) Hne).
Qed.

(** [register] never touches an entry that is already there, so it cannot
    give a held identifier to another socket. *)
Lemma register_keeps_entries (st : Server) (socket : string)
    (preferredId : option string) (draws : list N) (o : Outcome) :
  register socket preferredId draws st = Some o ->
  forall k p, JsMap.get (peers st) k = Some p -> JsMap.get (peers (next o)) k = Some p.
Proof.
  intros Hreg k p Hk.
  destruct (register_next _ _ _ _ _ Hreg) as [->|(id & Hid & -> & _)]; [exact Hk|].
  rewrite get_set_ne; [exact Hk|].
  intros ->. apply chooseId_not_held, has_false_get in Hid. congruence.
Qed.

(** C3, on the code. The host of a paired session loses its socket; within
    the grace period a new socket registers and asks for the host's
    identifier. The identifier is still held by the old entry, so the new
    socket gets a generated one, and when the task fires the old entry still
    has the captured socket: the viewer is sent peer-disconnected and is
    reset to available, and the host's entry is deleted. *)
Theorem reconnect_within_grace_is_reclaimed :
  Forall eventOk reconnectWithinGrace /\
  run initial reconnectWithinGrace
  = Some
      ({| peers := [("222-333-444", mkPeer "socket-V" Available None);
                    ("555-666-777", mkPeer "socket-H2" Available None)];
          pendingConnections := [];
          connectionIdOf := connectionIdOf (stateAfter reconnectWithinGrace);
          graceTimers := [] |},
       [("socket-H",
         ConnectionRequestMsg "request-1" (Some "222-333-444") "viewer" None);
        ("socket-V", ConnectionAccepted "123-456-789");
        ("socket-V", PeerDisconnected "123-456-789")],
       [Registered "123-456-789"; Registered "222-333-444";
        Requested "request-1"; Registered "555-666-777"]).
Proof.
  split; [|vm_compute; reflexivity].
  unfold reconnectWithinGrace, pairedSession, twoRegistrations. simpl app. solve_eventOk.
Qed.

(** ** The skip branch of the grace-period task *)

Section Ownership.

Lemma ownedBy_adjust (f : Peer -> Peer) ps k0 k s :
  (forall p, socketId (f p) = socketId p) ->
  ownedBy ps k s -> ownedBy (JsMap.adjust f ps k0) k s.
Proof.
  intros Hf (p & Hg & Hs). destruct (decide (k0 = k)) as [->|Hne].
  - exists (f p). rewrite get_adjust_eq, Hg. split; [reflexivity|]. now rewrite Hf.
  - exists p. now rewrite get_adjust_ne.
Qed.

Lemma ownedBy_set_fresh ps id v k s :
  JsMap.has ps id = false -> ownedBy ps k s -> ownedBy (JsMap.set ps id v) k s.
Proof.
  intros Hf (p & Hg & Hs). exists p. split; [|exact Hs].
  rewrite get_set_ne; [exact Hg|]. intros ->.
  apply has_false_get in Hf. congruence.
Qed.

Lemma ownedBy_delete ps k0 k s :
  k0 <> k -> ownedBy ps k s -> ownedBy (JsMap.delete ps k0) k s.
Proof. intros Hne (p & Hg & Hs). exists p. now rewrite get_delete_ne. Qed.

Lemma ownedBy_one ps k s s' : ownedBy ps k s -> ownedBy ps k s' -> s = s'.
Proof. intros (p & Hg & Hs) (p' & Hg' & Hs'). congruence. Qed.

Lemma takeTimer_split t timers rest :
  takeTimer t timers = Some rest ->
  exists before after, timers = before ++ t :: after /\ rest = before ++ after.
Proof.
  revert rest. induction timers as [|[k s] timers IH]; intros rest; simpl; [discriminate|].
  destruct (String.eqb_spec k t.1) as [Ek|Nk]; simpl.
  - destruct (String.eqb_spec s t.2) as [Es|Ns]; simpl.
    + intros [= <-]. exists [], timers. destruct t; simpl in *. now subst.
    + destruct (takeTimer t timers) as [r|]; [|discriminate]. simpl.
      intros [= <-]. destruct (IH r eq_refl) as (b & a & -> & ->).
      now exists ((k, s) :: b), a.
  - destruct (takeTimer t timers) as [r|]; [|discriminate]. simpl.
    intros [= <-]. destruct (IH r eq_refl) as (b & a & -> & ->).
    now exists ((k, s) :: b), a.
Qed.

(** No handler takes an entry away from its socket; only the task deletes. *)
Lemma handlers_keep_owner st e o :
  (forall k s, e <> GraceElapsed k s) ->
  step st e = Some o ->
  forall k s, ownedBy (peers st) k s -> ownedBy (peers (next o)) k s.
Proof.
  intros Hne Hstep k s Ho. destruct e; simpl in Hstep.
  - destruct (register_next _ _ _ _ _ Hstep) as [->|(id & Hid & -> & _)]; [exact Ho|].
    apply ownedBy_set_fresh; [eapply chooseId_not_held, Hid|exact Ho].
  - injection Hstep as <-. unfold requestConnection.
    destruct (findEntry (peers st) targetId) as [[tk tp]|]; [|exact Ho].
    destruct (isBusy tp); exact Ho.
  - injection Hstep as <-. unfold connectionResponse.
    destruct (JsMap.get (pendingConnections st) requestId) as [rq|]; [|exact Ho].
    destruct (findBySocketId (peers st) (viewerSocketId rq)); [|exact Ho].
    destruct accepted; [|exact Ho]. simpl.
    destruct (viewerConnectionId rq); repeat (apply ownedBy_adjust; [reflexivity|]);
      exact Ho.
  - injection Hstep as <-. unfold relay.
    destruct (findPeerByConnectionId (peers st) targetId); exact Ho.
  - injection Hstep as <-. unfold endSession.
    destruct (findEntry (peers st) targetId) as [[tk tp]|];
      destruct (connectionIdOf st !! socket); simpl;
      repeat (apply ownedBy_adjust; [reflexivity|]); exact Ho.
  - injection Hstep as <-. unfold disconnect.
    destruct (connectionIdOf st !! socket) as [c|]; [|exact Ho].
    destruct (truthy (Some c)); exact Ho.
  - now contradiction (Hne disconnectedId socket).
Qed.

(** What the task leaves of the registry: every entry but the one under the
    captured identifier keeps its socket, and that one is deleted only if it
    had the captured socket. *)
Lemma graceTask_owner st socket disconnectedId :
  (peers (next (graceTask socket disconnectedId st)) = peers st \/
   ownedBy (peers st) disconnectedId socket) /\
  (forall k s, k <> disconnectedId -> ownedBy (peers st) k s ->
               ownedBy (peers (next (graceTask socket disconnectedId st))) k s).
Proof.
  destruct (JsMap.get (peers st) disconnectedId) as [peer|] eqn:Hg.
  2:{ unfold graceTask. rewrite Hg. simpl. split; [now left|auto]. }
  destruct (String.eqb_spec (socketId peer) socket) as [Hs|Hs].
  2:{ rewrite (graceTask_skips_other_socket st socket disconnectedId peer Hg Hs).
      simpl. split; [now left|auto]. }
  destruct (graceTask_reclaim st socket disconnectedId peer Hg Hs)
    as (ps1 & out1 & Hcase & ->). simpl. split.
  - right. now exists peer.
  - intros k s Hk Ho. apply ownedBy_delete; [congruence|].
    destruct Hcase as [(other & k' & q & _ & _ & _ & -> & _)|(-> & _)]; [|exact Ho].
    now apply ownedBy_adjust.
Qed.

Lemma timersMatch_initial : timersMatch ∅ initial.
Proof.
  split; simpl.
  - intros k s H. now apply elem_of_nil in H.
  - apply NoDup_nil_2.
  - intros s k _ H. now rewrite lookup_empty in H.
Qed.

Lemma timersMatch_step closed st e o :
  timersMatch closed st -> mayClose closed e -> step st e = Some o ->
  timersMatch (closedAfter closed e) (next o).
Proof.
  intros [Hown Hnd Hopen] Hmay Hstep.
  assert (Hkind : (exists k s, e = GraceElapsed k s) \/
                  (forall k s, e <> GraceElapsed k s)).
  { destruct e; try (right; intros ? ?; discriminate). left. eauto. }
  destruct Hkind as [(k0 & s0 & ->)|Hne].
  - simpl in Hstep.
    destruct (takeTimer (k0, s0) (graceTimers st)) as [rest|] eqn:Ht; [|discriminate].
    injection Hstep as <-.
    destruct (takeTimer_split _ _ _ Ht) as (before & after & Htm & ->).
    set (st0 := {| peers := peers st; pendingConnections := pendingConnections st;
                   connectionIdOf := connectionIdOf st;
                   graceTimers := before ++ after |}).
    destruct (graceTask_owner st0 s0 k0) as [Hdel Hkeep].
    assert (Hfields : graceTimers (next (graceTask s0 k0 st0)) = before ++ after /\
                      connectionIdOf (next (graceTask s0 k0 st0)) = connectionIdOf st).
    { unfold graceTask. destruct (JsMap.get (peers st0) k0) as [peer|]; [|now split].
      destruct (negb (String.eqb (socketId peer) s0)); [now split|].
      destruct (if truthy (connectedTo peer) then _ else _) as [ps1 out1].
      destruct (reapRequests ps1 k0 (pendingConnections st0)). now split. }
    destruct Hfields as [Htimers Hconn].
    rewrite Htm, fmap_app, fmap_cons in Hnd. simpl in Hnd.
    apply NoDup_app in Hnd as (Hnb & Hba & Hna).
    apply NoDup_cons in Hna as [Hs0 Hna].
    assert (Hs0' : forall k, (k, s0) ∉ before ++ after).
    { intros k [Hin|Hin]%elem_of_app.
      - apply (Hba s0); [apply list_elem_of_fmap; now exists (k, s0)|left].
      - apply Hs0. apply list_elem_of_fmap. now exists (k, s0). }
    assert (Hs0c : s0 ∈ closed).
    { apply (Hown k0 s0). rewrite Htm. apply elem_of_app. right. left. }
    split; simpl.
    + rewrite Htimers. intros k s Hin.
      assert (Hin' : (k, s) ∈ graceTimers st).
      { rewrite Htm. apply elem_of_app in Hin as [Hin|Hin]; apply elem_of_app;
          [now left|right; now right]. }
      destruct (Hown k s Hin') as [Hc Ho]. split; [exact Hc|].
      destruct (decide (k = k0)) as [->|Hk]; [|now apply Hkeep].
      destruct Hdel as [->|Ho0]; [exact Ho|].
      exfalso. apply (Hs0' k0). now rewrite (ownedBy_one _ _ _ _ Ho0 Ho).
    + rewrite Htimers, fmap_app. apply NoDup_app. split; [exact Hnb|]. split; [|exact Hna].
      intros x Hx Hx'. apply (Hba x Hx). now right.
    + rewrite Hconn. intros s k Hs Hk. pose proof (Hopen s k Hs Hk) as Ho.
      destruct (decide (k = k0)) as [->|Hne]; [|now apply Hkeep].
      destruct Hdel as [->|Ho0]; [exact Ho|].
      exfalso. apply Hs. now rewrite <- (ownedBy_one _ _ _ _ Ho0 Ho).
  - pose proof (handlers_keep_owner st e o Hne Hstep) as Hkeep.
    destruct e; simpl in Hstep, Hmay |- *; try now contradiction (Hne disconnectedId socket).
    + destruct (register_next _ _ _ _ _ Hstep)
        as [->|(id & Hid & Hp & _ & Hc & Ht)]; [now split|].
      split; rewrite ?Ht; [|exact Hnd|].
      * intros k s Hin. destruct (Hown k s Hin). auto.
      * rewrite Hc. intros s k Hs. rewrite lookup_insert.
        destruct (decide (socket = s)) as [->|Hsn]; [|intros Hk; apply Hkeep; eauto].
        intros [= <-]. rewrite Hp. eexists. split; [apply get_set_eq|reflexivity].
    + injection Hstep as <-. unfold requestConnection in *.
      destruct (findEntry (peers st) targetId) as [[tk tp]|]; [|now split].
      destruct (isBusy tp); now split.
    + injection Hstep as <-.
      assert (Hf : graceTimers (next (connectionResponse requestId accepted st))
                   = graceTimers st /\
                   connectionIdOf (next (connectionResponse requestId accepted st))
                   = connectionIdOf st).
      { unfold connectionResponse.
        destruct (JsMap.get (pendingConnections st) requestId) as [rq|]; [|now split].
        destruct (findBySocketId (peers st) (viewerSocketId rq)); [|now split].
        destruct accepted; now split. }
      destruct Hf as [Ht Hc]. split; rewrite ?Ht, ?Hc; [|exact Hnd|eauto].
      intros k s Hin. destruct (Hown k s Hin). auto.
    + injection Hstep as <-. unfold relay in *.
      destruct (findPeerByConnectionId (peers st) targetId); now split.
    + injection Hstep as <-.
      assert (Hf : graceTimers (next (endSession socket targetId st)) = graceTimers st /\
                   connectionIdOf (next (endSession socket targetId st))
                   = connectionIdOf st).
      { unfold endSession. destruct (findEntry (peers st) targetId) as [[tk tp]|];
          now split. }
      destruct Hf as [Ht Hc]. split; rewrite ?Ht, ?Hc; [|exact Hnd|eauto].
      intros k s Hin. destruct (Hown k s Hin). auto.
    + injection Hstep as <-.
      assert (Hclosed : forall k s, (k, s) ∈ graceTimers st ->
                s ∈ {[socket]} ∪ closed /\ ownedBy (peers st) k s).
      { intros k s Hin. destruct (Hown k s Hin) as [Hcl Hob].
        split; [apply elem_of_union; now right|exact Hob]. }
      assert (Hopened : forall s k, s ∉ {[socket]} ∪ closed ->
                connectionIdOf st !! s = Some k -> ownedBy (peers st) k s).
      { intros s k Hs. apply Hopen. intros Hcl. apply Hs, elem_of_union. now right. }
      unfold disconnect.
      destruct (connectionIdOf st !! socket) as [c|] eqn:Hc; [|now split].
      destruct (truthy (Some c)); [|now split].
      split; simpl; [| |exact Hopened].
      * intros k s [Hin|Hin]%elem_of_app; [now apply Hclosed|].
        apply elem_of_cons in Hin as [Heq|Hin]; [|now apply elem_of_nil in Hin].
        injection Heq as -> ->.
        split; [apply elem_of_union; left; now apply elem_of_singleton|].
        now apply Hopen.
      * rewrite fmap_app. apply NoDup_app. split; [exact Hnd|]. split.
        -- intros x Hx Hx'. apply list_elem_of_fmap in Hx as ([k s] & Hxe & Hin).
           simpl in Hxe. subst x.
           apply elem_of_cons in Hx' as [->|Hx']; [|now apply elem_of_nil in Hx'].
           destruct (Hown k socket Hin) as [Hcl _]. contradiction.
        -- apply NoDup_singleton.
Qed.

Lemma reachableOnce_timersMatch closed st : reachableOnce closed st -> timersMatch closed st.
Proof.
  induction 1 as [|closed st e o _ IH _ Hmay Hstep]; [apply timersMatch_initial|].
  eapply timersMatch_step; eassumption.
Qed.

Lemma reachableOnce_reachable closed st : reachableOnce closed st -> reachable st.
Proof.
  induction 1 as [|closed st e o _ IH Hok _ Hstep]; [apply reachable_initial|].
  eapply reachable_step; eassumption.
Qed.

(** X24. In a run where no socket disconnects twice, a task that fires
    always finds the entry it captured, with the socket it captured: it never
    takes the branch that skips the cleanup, and the entry is deleted. *)
Lemma grace_task_never_skips closed st disconnectedId socket o :
  reachableOnce closed st ->
  step st (GraceElapsed disconnectedId socket) = Some o ->
  ownedBy (peers st) disconnectedId socket /\
  JsMap.get (peers (next o)) disconnectedId = None.
Proof.
  intros Hst Hstep. pose proof (reachableOnce_timersMatch _ _ Hst) as [Hown _ _].
  assert (Ho : ownedBy (peers st) disconnectedId socket).
  { simpl in Hstep.
    destruct (takeTimer (disconnectedId, socket) (graceTimers st)) as [rest|] eqn:Ht;
      [|discriminate].
    destruct (takeTimer_split _ _ _ Ht) as (before & after & Htm & _).
    apply (Hown disconnectedId socket). rewrite Htm. apply elem_of_app. right. left. }
  split; [exact Ho|].
  destruct Ho as (peer & Hg & Hs).
  destruct (takeTimer_fires _ _ _ _ Hstep) as [timers ->].
  destruct (graceTask_reclaim
              {| peers := peers st; pendingConnections := pendingConnections st;
                 connectionIdOf := connectionIdOf st; graceTimers := timers |}
              socket disconnectedId peer Hg Hs) as (ps1 & out1 & _ & ->).
  simpl. apply get_delete_eq.
Qed.

End Ownership.

(** ** End of session and relay *)

Lemma endSession_found (st : Server) (socket targetId k : string) (q : Peer) :
  findEntry (peers st) targetId = Some (k, q) ->
  endSession socket targetId st
  = {| next :=
         withPeers st
           (match connectionIdOf st !! socket with
            | Some own =>
                JsMap.adjust markAvailable (JsMap.adjust markAvailable (peers st) k) own
            | None => JsMap.adjust markAvailable (peers st) k
            end);
       emitted := [(socketId q, SessionEnded (connectionIdOf st !! socket))];
       reply := None |}.
Proof. intros Hf. unfold endSession. now rewrite Hf. Qed.

Lemma endSession_missing (st : Server) (socket targetId : string) :
  findEntry (peers st) targetId = None ->
  endSession socket targetId st
  = {| next :=
         withPeers st
           (match connectionIdOf st !! socket with
            | Some own => JsMap.adjust markAvailable (peers st) own
            | None => peers st
            end);
       emitted := [];
       reply := None |}.
Proof. intros Hf. unfold endSession. now rewrite Hf. Qed.

(** X1. [end-session] in a reachable state. The registered peer the target
    names (hyphens ignored) is reset to available with [connectedTo] null
    and is sent session-ended with the caller's identifier; with no such
    peer nothing is sent. The caller's own entry is reset in either case.
    Every other entry, the pending requests, the sockets' identifiers and
    the timers stay as they are. *)
Theorem endSession_effect (st : Server) (socket targetId : string) :
  reachable st ->
  let o := endSession socket targetId st in
  (pendingConnections (next o) = pendingConnections st /\
   connectionIdOf (next o) = connectionIdOf st /\
   graceTimers (next o) = graceTimers st /\
   reply o = None)
  /\
  (forall k q,
     (k, q) ∈ peers st -> stripHyphens k = stripHyphens targetId ->
     emitted o = [(socketId q, SessionEnded (connectionIdOf st !! socket))] /\
     JsMap.get (peers (next o)) k = Some (mkPeer (socketId q) Available None))
  /\
  ((forall k q, (k, q) ∈ peers st -> stripHyphens k <> stripHyphens targetId) ->
   emitted o = [])
  /\
  (forall own p,
     connectionIdOf st !! socket = Some own -> JsMap.get (peers st) own = Some p ->
     JsMap.get (peers (next o)) own = Some (mkPeer (socketId p) Available None))
  /\
  (forall k p,
     JsMap.get (peers st) k = Some p ->
     stripHyphens k <> stripHyphens targetId ->
     connectionIdOf st !! socket <> Some k ->
     JsMap.get (peers (next o)) k = Some p).
Proof.
  intros Hst o. pose proof (reachable_wellFormed st Hst) as Hwf.
  destruct (findEntry (peers st) targetId) as [[tk tq]|] eqn:Hf.
  - assert (Ho : o = _) by exact (endSession_found st socket targetId tk tq Hf).
    destruct (findEntry_Some _ _ _ _ Hf) as [Htin Htk].
    pose proof (elem_get_NoDup _ _ _ (wf_nodup st Hwf) Htin) as Htg.
    rewrite Ho. simpl. split; [auto|]. split; [|split; [|split]].
    + intros k q Hin E.
      pose proof (findEntry_unique st targetId k q Hwf Hin E) as Hf'.
      rewrite Hf in Hf'. injection Hf' as -> ->. split; [reflexivity|].
      destruct (connectionIdOf st !! socket) as [own|].
      * destruct (decide (own = k)) as [->|Hne].
        -- now rewrite !get_adjust_eq, Htg.
        -- rewrite get_adjust_ne by exact Hne. now rewrite get_adjust_eq, Htg.
      * now rewrite get_adjust_eq, Htg.
    + intros Hnone. exfalso. exact (Hnone tk tq Htin Htk).
    + intros own p -> Hg. rewrite get_adjust_eq.
      destruct (decide (tk = own)) as [->|Hne].
      * now rewrite get_adjust_eq, Hg.
      * rewrite get_adjust_ne by exact Hne. now rewrite Hg.
    + intros k p Hg Hk Hown.
      assert (tk <> k) by (intros ->; now apply Hk).
      destruct (connectionIdOf st !! socket) as [own|].
      * rewrite !get_adjust_ne; [exact Hg|assumption|congruence].
      * now rewrite get_adjust_ne.
  - assert (Ho : o = _) by exact (endSession_missing st socket targetId Hf).
    rewrite Ho. simpl. split; [auto|]. split; [|split; [|split]].
    + intros k q Hin E. exfalso.
      exact (proj1 (findEntry_None _ _) Hf k q Hin E).
    + reflexivity.
    + intros own p -> Hg. now rewrite get_adjust_eq, Hg.
    + intros k p Hg Hk Hown.
      destruct (connectionIdOf st !! socket) as [own|]; [|exact Hg].
      rewrite get_adjust_ne; [exact Hg|congruence].
Qed.

Lemma endSession_effect_witness :
  emitted (endSession "socket-V" "123456789" (stateAfter pairedSession))
  = [("socket-H", SessionEnded (Some "222-333-444"))] /\
  JsMap.get (peers (next (endSession "socket-V" "123456789" (stateAfter pairedSession))))
    "123-456-789"
  = Some (mkPeer "socket-H" Available None) /\
  JsMap.get (peers (next (endSession "socket-V" "123456789" (stateAfter pairedSession))))
    "222-333-444"
  = Some (mkPeer "socket-V" Available None).
Proof.
  destruct (endSession_effect (stateAfter pairedSession) "socket-V" "123456789"
              (stateAfter_reachable _ pairedSession_ok))
    as (_ & Htarget & _ & Hown & _).
  destruct (Htarget "123-456-789" (mkPeer "socket-H" Busy (Some "222-333-444"))
              ltac:(solve_elem) ltac:(reflexivity)) as [Hout Hreset].
  split; [exact Hout|]. split; [exact Hreset|].
  exact (Hown "222-333-444" (mkPeer "socket-V" Busy (Some "123-456-789"))
           ltac:(vm_compute; reflexivity) ltac:(reflexivity)).
Defined.

(** X2. The relay handlers in a reachable state never change the server.
    The message goes, with the sender's identifier, to the socket of the
    registered peer the target names (hyphens ignored), and to nobody when
    there is no such peer; the sender gets no answer either way. *)
Theorem relay_effect (st : Server) (socket : string) (kind : RelayKind)
    (targetId : string) :
  reachable st ->
  let o := relay socket kind targetId st in
  next o = st /\ reply o = None /\
  (forall k q,
     (k, q) ∈ peers st -> stripHyphens k = stripHyphens targetId ->
     emitted o = [(socketId q, Relayed kind (connectionIdOf st !! socket))]) /\
  ((forall k q, (k, q) ∈ peers st -> stripHyphens k <> stripHyphens targetId) ->
   emitted o = []).
Proof.
  intros Hst o. pose proof (reachable_wellFormed st Hst) as Hwf.
  subst o. unfold relay, findPeerByConnectionId.
  destruct (findEntry (peers st) targetId) as [[tk tq]|] eqn:Hf; simpl.
  - split; [reflexivity|]. split; [reflexivity|]. split.
    + intros k q Hin E.
      pose proof (findEntry_unique st targetId k q Hwf Hin E) as Hf'.
      rewrite Hf in Hf'. now injection Hf' as -> ->.
    + intros Hnone. exfalso. destruct (findEntry_Some _ _ _ _ Hf) as [Hin E].
      exact (Hnone tk tq Hin E).
  - split; [reflexivity|]. split; [reflexivity|]. split; [|reflexivity].
    intros k q Hin E. exfalso. exact (proj1 (findEntry_None _ _) Hf k q Hin E).
Qed.

Lemma relay_effect_witness :
  next (relay "socket-V" WebrtcOffer "123456789" (stateAfter pairedSession))
  = stateAfter pairedSession /\
  emitted (relay "socket-V" WebrtcOffer "123456789" (stateAfter pairedSession))
  = [("socket-H", Relayed WebrtcOffer (Some "222-333-444"))].
Proof.
  destruct (relay_effect (stateAfter pairedSession) "socket-V" WebrtcOffer "123456789"
              (stateAfter_reachable _ pairedSession_ok))
    as (Hsame & _ & Hsend & _).
  split; [exact Hsame|].
  exact (Hsend "123-456-789" (mkPeer "socket-H" Busy (Some "222-333-444"))
           ltac:(solve_elem) ltac:(reflexivity)).
Defined.

(** ** What changes the registry *)

Lemma has_adjust (f : Peer -> Peer) (ps : list (string * Peer)) (k0 k : string) :
  JsMap.has (JsMap.adjust f ps k0) k = JsMap.has ps k.
Proof.
  unfold JsMap.has. destruct (decide (k0 = k)) as [->|Hne].
  - rewrite get_adjust_eq. now destruct (JsMap.get ps k).
  - now rewrite get_adjust_ne.
Qed.

Lemma has_delete (ps : list (string * Peer)) (k0 k : string) :
  JsMap.has (JsMap.delete ps k0) k = true -> JsMap.has ps k = true.
Proof.
  unfold JsMap.has. destruct (decide (k0 = k)) as [->|Hne].
  - now rewrite get_delete_eq.
  - now rewrite get_delete_ne.
Qed.

(** X3. A [register] that returns adds at most the caller's entry: every
    entry that was in the registry is still there unchanged (so a held
    identifier is never given to another socket), the pending requests and
    timers are untouched, nothing is emitted, and no other socket's
    remembered identifier changes. *)
Theorem register_only_adds (st : Server) (socket : string)
    (preferredId : option string) (draws : list N) (o : Outcome) :
  register socket preferredId draws st = Some o ->
  (forall k p, JsMap.get (peers st) k = Some p -> JsMap.get (peers (next o)) k = Some p) /\
  pendingConnections (next o) = pendingConnections st /\
  graceTimers (next o) = graceTimers st /\
  emitted o = [] /\
  (forall other, other <> socket ->
     connectionIdOf (next o) !! other = connectionIdOf st !! other).
Proof.
  intros Hreg. unfold register in Hreg.
  destruct (liveRegistration socket st) as [id|].
  - injection Hreg as <-. simpl. auto.
  - destruct (chooseId (peers st) preferredId draws) as [id|] eqn:Hid; [|discriminate].
    injection Hreg as <-. simpl. repeat split; try reflexivity.
    + intros k p Hk. rewrite get_set_ne; [exact Hk|].
      intros ->. apply chooseId_not_held, has_false_get in Hid. congruence.
    + intros other Hne. now rewrite lookup_insert_ne.
Qed.

Lemma register_only_adds_witness :
  JsMap.get
    (peers (next (outcomeOf (stateAfter twoRegistrations)
                    (Register "socket-W" (Some "123456789") [444555666%N]))))
    "123-456-789"
  = Some (mkPeer "socket-H" Available None).
Proof.
  apply (register_only_adds (stateAfter twoRegistrations) "socket-W"
           (Some "123456789") [444555666%N]
           (outcomeOf (stateAfter twoRegistrations)
              (Register "socket-W" (Some "123456789") [444555666%N]))
           ltac:(vm_compute; reflexivity)).
  vm_compute. reflexivity.
Defined.

(** X4. Only [register] adds an identifier to the registry and only the
    grace-period task removes one: an event that is not a registration
    leaves no key that was not there, and an event that is not a firing
    timer keeps every entry, with its socket. *)
Theorem registry_grows_and_shrinks (st : Server) (e : Event) (o : Outcome) :
  step st e = Some o ->
  ((forall s p d, e <> Register s p d) ->
   forall k, JsMap.has (peers (next o)) k = true -> JsMap.has (peers st) k = true)
  /\
  ((forall k s, e <> GraceElapsed k s) ->
   forall k p, JsMap.get (peers st) k = Some p ->
               exists p', JsMap.get (peers (next o)) k = Some p' /\
                          socketId p' = socketId p).
Proof.
  intros Hstep. split.
  - intros Hne k. destruct e; simpl in Hstep.
    + now contradiction (Hne socket preferredId draws).
    + injection Hstep as <-. unfold requestConnection.
      destruct (findEntry (peers st) targetId) as [[tk tp]|]; [|auto].
      destruct (isBusy tp); auto.
    + injection Hstep as <-. unfold connectionResponse.
      destruct (JsMap.get (pendingConnections st) requestId) as [rq|]; [|auto].
      destruct (findBySocketId (peers st) (viewerSocketId rq)); [|auto].
      destruct accepted; [|auto]. simpl.
      destruct (viewerConnectionId rq); now rewrite !has_adjust.
    + injection Hstep as <-. unfold relay.
      destruct (findPeerByConnectionId (peers st) targetId); auto.
    + injection Hstep as <-. unfold endSession.
      destruct (findEntry (peers st) targetId) as [[tk tp]|];
        destruct (connectionIdOf st !! socket); simpl; now rewrite ?has_adjust.
    + injection Hstep as <-. unfold disconnect.
      destruct (connectionIdOf st !! socket) as [c|]; [|auto].
      destruct (truthy (Some c)); auto.
    + destruct (takeTimer_fires _ _ _ _ Hstep) as [timers ->].
      unfold graceTask. simpl.
      destruct (JsMap.get (peers st) disconnectedId) as [peer|]; [|auto].
      destruct (negb (String.eqb (socketId peer) socket)); [auto|].
      set (r := if truthy (connectedTo peer) then _ else _).
      assert (Hr : forall k, JsMap.has r.1 k = JsMap.has (peers st) k).
      { intros k'. subst r. destruct (truthy (connectedTo peer)); [|reflexivity].
        destruct (connectedTo peer); [|reflexivity].
        destruct (findEntry (peers st) s) as [[ok op]|]; [|reflexivity].
        apply has_adjust. }
      destruct r as [ps1 out1]. simpl in Hr.
      destruct (reapRequests ps1 disconnectedId (pendingConnections st)). simpl.
      intros Hh. apply has_delete in Hh. now rewrite <- Hr.
  - intros Hne k p Hk.
    exact (handlers_keep_owner st e o Hne Hstep k (socketId p)
             (ex_intro _ p (conj Hk eq_refl))).
Qed.

Lemma registry_grows_and_shrinks_witness :
  exists p',
    JsMap.get
      (peers (next (outcomeOf (stateAfter requestPending)
                      (ConnectionResponse "socket-H" "request-1" true))))
      "123-456-789" = Some p' /\
    socketId p' = socketId (mkPeer "socket-H" Available None).
Proof.
  apply (proj2 (registry_grows_and_shrinks (stateAfter requestPending)
                  (ConnectionResponse "socket-H" "request-1" true)
                  (outcomeOf (stateAfter requestPending)
                     (ConnectionResponse "socket-H" "request-1" true))
                  ltac:(reflexivity))
           ltac:(intros ? ?; discriminate)).
  reflexivity.
Defined.

(** ** Runs in which a socket disconnects once: sample runs *)

Lemma run_reachableOnce (es : list Event) :
  forall closed st st' out replies,
    reachableOnce closed st -> Forall eventOk es -> closesOnce closed es ->
    run st es = Some (st', out, replies) ->
    reachableOnce (closedOf closed es) st'.
Proof.
  induction es as [|e es IH]; intros closed st st' out replies Hst Hok Hcl Hrun;
    simpl in Hrun |- *.
  - inversion Hrun; subst; exact Hst.
  - inversion Hok as [|? ? He Hes]; subst. destruct Hcl as [Hm Hcl].
    destruct (step st e) as [o|] eqn:Hstep; [|discriminate].
    destruct (run (next o) es) as [[[st1 out1] rep1]|] eqn:Hrest; [|discriminate].
    inversion Hrun; subst.
    eapply IH; [|exact Hes|exact Hcl|exact Hrest].
    eapply reachableOnce_step; eassumption.
Qed.

Lemma hostDrops_once : reachableOnce (closedOf ∅ hostDrops) (stateAfter hostDrops).
Proof.
  unfold stateAfter.
  destruct (run initial hostDrops) as [[[st out] replies]|] eqn:Hrun;
    [|vm_compute in Hrun; discriminate].
  eapply run_reachableOnce;
    [apply reachableOnce_initial|apply hostDrops_ok| |exact Hrun].
  unfold hostDrops, twoRegistrations. simpl. repeat split. apply not_elem_of_empty.
Qed.

Lemma grace_task_never_skips_witness :
  ownedBy (peers (stateAfter hostDrops)) "123-456-789" "socket-H" /\
  JsMap.get
    (peers (next (outcomeOf (stateAfter hostDrops)
                    (GraceElapsed "123-456-789" "socket-H"))))
    "123-456-789" = None.
Proof.
  apply (grace_task_never_skips (closedOf ∅ hostDrops) (stateAfter hostDrops)
           "123-456-789" "socket-H"
           (outcomeOf (stateAfter hostDrops) (GraceElapsed "123-456-789" "socket-H"))
           hostDrops_once).
  vm_compute. reflexivity.
Defined.

Lemma register_twice_witness :
  register "socket-W" (Some "987654321") [111222333%N]
    (next (outcomeOf (stateAfter twoRegistrations)
             (Register "socket-W" None [444555666%N])))
  = Some {| next := next (outcomeOf (stateAfter twoRegistrations)
                              (Register "socket-W" None [444555666%N]));
            emitted := [];
            reply := Some (Registered "444-555-666") |}.
Proof.
  apply (register_twice "socket-W" None [444555666%N] (Some "987654321") [111222333%N]
           (stateAfter twoRegistrations)
           (outcomeOf (stateAfter twoRegistrations)
              (Register "socket-W" None [444555666%N]))).
  vm_compute. reflexivity.
Defined.

(** ** Pending requests and their hosts *)

Lemma elem_set (V : Type) (m : list (string * V)) (k r : string) (v q : V) :
  (r, q) ∈ JsMap.set m k v -> (r, q) = (k, v) \/ (r, q) ∈ m.
Proof.
  induction m as [|[k0 v0] m IH]; simpl.
  - intros [Heq|Hin]%elem_of_cons; [now left|now apply elem_of_nil in Hin].
  - destruct (String.eqb k0 k).
    + intros [Heq|Hin]%elem_of_cons; [now left|right; now right].
    + intros [Heq|Hin]%elem_of_cons; [right; rewrite Heq; left|].
      destruct (IH Hin) as [Heq|Hin']; [now left|right; now right].
Qed.

(** Where the pending requests of the next state come from, for a handler. *)
Lemma pending_after_handler (st : Server) (e : Event) (o : Outcome) :
  (forall k s, e <> GraceElapsed k s) ->
  step st e = Some o ->
  forall rid rq, (rid, rq) ∈ pendingConnections (next o) ->
    (rid, rq) ∈ pendingConnections st \/
    exists tk tp, (tk, tp) ∈ peers st /\
                  hostConnectionId rq = tk /\ hostSocketId rq = socketId tp.
Proof.
  intros Hne Hstep rid rq. destruct e; simpl in Hstep.
  - destruct (register_next _ _ _ _ _ Hstep) as [->|(id & _ & _ & -> & _)]; auto.
  - injection Hstep as <-. unfold requestConnection.
    destruct (findEntry (peers st) targetId) as [[tk tp]|] eqn:Hf; [|auto].
    destruct (isBusy tp); [auto|]. simpl.
    intros [Heq|Hin]%elem_set; [|now left].
    right. exists tk, tp. injection Heq as -> ->. simpl.
    split; [now apply findEntry_Some in Hf|auto].
  - injection Hstep as <-. unfold connectionResponse.
    destruct (JsMap.get (pendingConnections st) requestId) as [rq0|]; [|auto].
    destruct (findBySocketId (peers st) (viewerSocketId rq0));
      [destruct accepted|]; simpl; intros [Hin _]%elem_delete; now left.
  - injection Hstep as <-. unfold relay.
    destruct (findPeerByConnectionId (peers st) targetId); auto.
  - injection Hstep as <-. unfold endSession.
    destruct (findEntry (peers st) targetId) as [[tk tp]|]; auto.
  - injection Hstep as <-. unfold disconnect.
    destruct (connectionIdOf st !! socket) as [c|]; [|auto].
    destruct (truthy (Some c)); auto.
  - now contradiction (Hne disconnectedId socket).
Qed.

Lemma pendingHostsRegistered_step (st : Server) (e : Event) (o : Outcome) :
  wellFormed st -> pendingHostsRegistered st -> step st e = Some o ->
  pendingHostsRegistered (next o).
Proof.
  intros Hwf Hinv Hstep.
  assert (Hkind : (exists k s, e = GraceElapsed k s) \/
                  (forall k s, e <> GraceElapsed k s)).
  { destruct e; try (right; intros ? ?; discriminate). left. eauto. }
  destruct Hkind as [(k0 & s0 & ->)|Hne].
  - destruct (takeTimer_fires _ _ _ _ Hstep) as [timers ->].
    set (st0 := {| peers := peers st; pendingConnections := pendingConnections st;
                   connectionIdOf := connectionIdOf st; graceTimers := timers |}).
    destruct (graceTask_owner st0 s0 k0) as [_ Hkeep].
    intros rid rq Hin.
    assert (Hfrom : (rid, rq) ∈ pendingConnections st /\
                    (peers (next (graceTask s0 k0 st0)) = peers st \/
                     hostConnectionId rq <> k0)).
    { revert Hin. unfold graceTask.
      destruct (JsMap.get (peers st0) k0) as [peer|]; [|simpl; auto].
      destruct (negb (String.eqb (socketId peer) s0)); [simpl; auto|].
      destruct (if truthy (connectedTo peer) then _ else _) as [ps1 out1].
      destruct (reapRequests ps1 k0 (pendingConnections st0)) as [kept out2] eqn:Hre.
      simpl. intros Hin.
      assert (Hin' : (rid, rq) ∈ (reapRequests ps1 k0 (pendingConnections st0)).1)
        by now rewrite Hre.
      apply reapRequests_kept in Hin' as (Hp & Hh & _). auto. }
    destruct Hfrom as [Hp [Hsame|Hh]].
    + rewrite Hsame. exact (Hinv rid rq Hp).
    + apply Hkeep; [congruence|]. exact (Hinv rid rq Hp).
  - intros rid rq Hin.
    destruct (pending_after_handler st e o Hne Hstep rid rq Hin)
      as [Hold|(tk & tp & Htin & -> & ->)].
    + apply (handlers_keep_owner st e o Hne Hstep). exact (Hinv rid rq Hold).
    + apply (handlers_keep_owner st e o Hne Hstep).
      exists tp. split; [|reflexivity].
      exact (elem_get_NoDup _ _ _ (wf_nodup st Hwf) Htin).
Qed.

Lemma reachable_pendingHostsRegistered (st : Server) :
  reachable st -> pendingHostsRegistered st.
Proof.
  induction 1 as [|st e o Hst IH Hok Hstep].
  - intros rid rq H. now apply elem_of_nil in H.
  - eapply pendingHostsRegistered_step; [|exact IH|exact Hstep].
    now apply reachable_wellFormed.
Qed.

(** X6. In every reachable state the host of each pending request is still
    registered, under the identifier the request recorded and with the
    socket it recorded: a request never outlives its host. *)
Theorem pending_host_registered (st : Server) (rid : string) (rq : Request) :
  reachable st -> (rid, rq) ∈ pendingConnections st ->
  exists host, JsMap.get (peers st) (hostConnectionId rq) = Some host /\
               socketId host = hostSocketId rq.
Proof.
  intros Hst Hin. exact (reachable_pendingHostsRegistered st Hst rid rq Hin).
Qed.

Lemma pending_host_registered_witness :
  exists host,
    JsMap.get (peers (stateAfter requestPending)) "123-456-789" = Some host /\
    socketId host = "socket-H".
Proof.
  apply (pending_host_registered (stateAfter requestPending) "request-1"
           (mkRequest "socket-V" (Some "222-333-444") "socket-H" "123-456-789")).
  - apply stateAfter_reachable, requestPending_ok.
  - solve_elem.
Defined.

(** X7. In a reachable state, accepting a pending request whose viewer's
    socket belongs to a registered peer always finds the host: the entry
    under the recorded host identifier becomes busy with [connectedTo] the
    recorded viewer identifier, and keeps the recorded host socket. *)
Theorem accept_marks_host (st : Server) (requestId : string) (request : Request)
    (k : string) (viewerPeer : Peer) :
  reachable st ->
  JsMap.get (pendingConnections st) requestId = Some request ->
  (k, viewerPeer) ∈ peers st -> socketId viewerPeer = viewerSocketId request ->
  JsMap.get (peers (next (connectionResponse requestId true st)))
    (hostConnectionId request)
  = Some (mkPeer (hostSocketId request) Busy (viewerConnectionId request)).
Proof.
  intros Hst Hr Hin Hs.
  destruct (reachable_pendingHostsRegistered st Hst requestId request
              (get_Some_elem _ _ _ Hr)) as (host & Hh & Hhs).
  destruct (findBySocketId (peers st) (viewerSocketId request)) as [vp|] eqn:Hf.
  2:{ exfalso. exact (proj1 (findBySocketId_None _ _) Hf k viewerPeer Hin Hs). }
  unfold connectionResponse. rewrite Hr, Hf. simpl.
  destruct (viewerConnectionId request) as [v|] eqn:Hv.
  - destruct (decide (v = hostConnectionId request)) as [->|Hne].
    + rewrite !get_adjust_eq, Hh. unfold markBusy. simpl. now rewrite Hhs.
    + rewrite get_adjust_ne by exact Hne. rewrite get_adjust_eq, Hh. unfold markBusy. simpl.
      now rewrite Hhs.
  - rewrite get_adjust_eq, Hh. unfold markBusy. simpl. now rewrite Hhs.
Qed.

Lemma accept_marks_host_witness :
  JsMap.get
    (peers (next (connectionResponse "request-1" true (stateAfter earlyRequest))))
    "123-456-789"
  = Some (mkPeer "socket-H" Busy None).
Proof.
  apply (accept_marks_host (stateAfter earlyRequest) "request-1"
           (mkRequest "socket-V" None "socket-H" "123-456-789")
           "222-333-444" (mkPeer "socket-V" Available None)).
  - apply stateAfter_reachable. unfold earlyRequest. solve_eventOk.
  - reflexivity.
  - solve_elem.
  - reflexivity.
Defined.

(** X8. After such an acceptance the host is taken: a [request-connection]
    that names the host's identifier, in either spelling and from any
    socket, is answered [PeerBusy] and changes nothing. *)
Theorem accepted_host_is_busy (st : Server) (requestId : string) (request : Request)
    (k : string) (viewerPeer : Peer)
    (socket targetId : string) (viewerName password : option string) (uuid : string) :
  reachable st ->
  JsMap.get (pendingConnections st) requestId = Some request ->
  (k, viewerPeer) ∈ peers st -> socketId viewerPeer = viewerSocketId request ->
  stripHyphens targetId = stripHyphens (hostConnectionId request) ->
  let st' := next (connectionResponse requestId true st) in
  requestConnection socket targetId viewerName password uuid st'
  = {| next := st'; emitted := []; reply := Some (Failed PeerBusy) |}.
Proof.
  intros Hst Hr Hin Hs Ht st'.
  assert (Hst' : reachable st').
  { apply (reachable_step st (ConnectionResponse "" requestId true)
             (connectionResponse requestId true st) Hst I eq_refl). }
  pose proof (reachable_wellFormed st' Hst') as Hwf.
  destruct (reachable_pendingHostsRegistered st Hst requestId request
              (get_Some_elem _ _ _ Hr)) as (host & Hh & Hhs).
  assert (Hbusy : JsMap.get (peers st') (hostConnectionId request)
                  = Some (mkPeer (hostSocketId request) Busy (viewerConnectionId request))).
  { destruct (findBySocketId (peers st) (viewerSocketId request)) as [vp|] eqn:Hf.
    2:{ exfalso. exact (proj1 (findBySocketId_None _ _) Hf k viewerPeer Hin Hs). }
    subst st'. unfold connectionResponse. rewrite Hr, Hf. simpl.
    destruct (viewerConnectionId request) as [v|] eqn:Hv.
    - destruct (decide (v = hostConnectionId request)) as [->|Hne].
      + rewrite !get_adjust_eq, Hh. unfold markBusy. simpl. now rewrite Hhs.
      + rewrite get_adjust_ne by exact Hne. rewrite get_adjust_eq, Hh. unfold markBusy. simpl.
        now rewrite Hhs.
    - rewrite get_adjust_eq, Hh. unfold markBusy. simpl. now rewrite Hhs. }
  unfold requestConnection.
  rewrite (findEntry_unique st' targetId (hostConnectionId request) _ Hwf
             (get_Some_elem _ _ _ Hbusy) (eq_sym Ht)).
  reflexivity.
Qed.

Lemma accepted_host_is_busy_witness :
  reply (requestConnection "socket-W" "123456789" None None "request-2"
           (next (connectionResponse "request-1" true (stateAfter requestPending))))
  = Some (Failed PeerBusy).
Proof.
  rewrite (accepted_host_is_busy (stateAfter requestPending) "request-1"
             (mkRequest "socket-V" (Some "222-333-444") "socket-H" "123-456-789")
             "222-333-444" (mkPeer "socket-V" Available None)
             "socket-W" "123456789" None None "request-2"
             (stateAfter_reachable _ requestPending_ok)
             ltac:(reflexivity) ltac:(solve_elem) ltac:(reflexivity)
             ltac:(reflexivity)).
  reflexivity.
Defined.

(** ** Sockets and their entries *)

Lemma elem_adjust_socket (f : Peer -> Peer) (ps : list (string * Peer))
    (k0 k : string) (p' : Peer) :
  (forall p, socketId (f p) = socketId p) ->
  (k, p') ∈ JsMap.adjust f ps k0 ->
  exists p, (k, p) ∈ ps /\ socketId p = socketId p'.
Proof.
  intros Hf [Hin|(v & Hin & _ & ->)]%elem_adjust.
  - now exists p'.
  - exists v. split; [exact Hin|]. now rewrite Hf.
Qed.

(** A handler other than [register], and the task, leave the sockets'
    identifiers alone, and every entry of the next registry was there, with
    its socket. *)
Lemma entries_after_step (st : Server) (e : Event) (o : Outcome) :
  (forall s p d, e <> Register s p d) ->
  step st e = Some o ->
  connectionIdOf (next o) = connectionIdOf st /\
  forall k p', (k, p') ∈ peers (next o) ->
               exists p, (k, p) ∈ peers st /\ socketId p = socketId p'.
Proof.
  intros Hne Hstep.
  assert (Hid : forall k p', (k, p') ∈ peers st ->
                  exists p, (k, p) ∈ peers st /\ socketId p = socketId p')
    by (intros k p' H; now exists p').
  destruct e; simpl in Hstep.
  - now contradiction (Hne socket preferredId draws).
  - injection Hstep as <-. unfold requestConnection.
    destruct (findEntry (peers st) targetId) as [[tk tp]|]; [|auto].
    destruct (isBusy tp); auto.
  - injection Hstep as <-. unfold connectionResponse.
    destruct (JsMap.get (pendingConnections st) requestId) as [rq|]; [|auto].
    destruct (findBySocketId (peers st) (viewerSocketId rq)); [|auto].
    destruct accepted; [|auto]. simpl. split; [reflexivity|].
    intros k p' Hin. destruct (viewerConnectionId rq).
    + apply elem_adjust_socket in Hin as (p1 & Hin & E1); [|reflexivity].
      apply elem_adjust_socket in Hin as (p2 & Hin & E2); [|reflexivity].
      exists p2. split; [exact Hin|congruence].
    + apply elem_adjust_socket in Hin; [exact Hin|reflexivity].
  - injection Hstep as <-. unfold relay.
    destruct (findPeerByConnectionId (peers st) targetId); auto.
  - injection Hstep as <-. unfold endSession.
    destruct (findEntry (peers st) targetId) as [[tk tp]|];
      destruct (connectionIdOf st !! socket); simpl; (split; [reflexivity|]);
      intros k p' Hin; auto.
    + apply elem_adjust_socket in Hin as (p1 & Hin & E1); [|reflexivity].
      apply elem_adjust_socket in Hin as (p2 & Hin & E2); [|reflexivity].
      exists p2. split; [exact Hin|congruence].
    + apply elem_adjust_socket in Hin; [exact Hin|reflexivity].
    + apply elem_adjust_socket in Hin; [exact Hin|reflexivity].
  - injection Hstep as <-. unfold disconnect.
    destruct (connectionIdOf st !! socket) as [c|]; [|auto].
    destruct (truthy (Some c)); auto.
  - destruct (takeTimer_fires _ _ _ _ Hstep) as [timers ->].
    unfold graceTask. simpl.
    destruct (JsMap.get (peers st) disconnectedId) as [peer|]; [|auto].
    destruct (negb (String.eqb (socketId peer) socket)); [auto|].
    set (r := if truthy (connectedTo peer) then _ else _).
    assert (Hr : forall k p', (k, p') ∈ r.1 ->
                   exists p, (k, p) ∈ peers st /\ socketId p = socketId p').
    { subst r. destruct (truthy (connectedTo peer)); [|exact Hid].
      destruct (connectedTo peer); [|exact Hid].
      destruct (findEntry (peers st) s) as [[ok op]|]; [|exact Hid].
      simpl. intros k p' Hin. apply elem_adjust_socket in Hin; [exact Hin|reflexivity]. }
    destruct r as [ps1 out1]. simpl in Hr.
    destruct (reapRequests ps1 disconnectedId (pendingConnections st)). simpl.
    split; [reflexivity|]. intros k p' [Hin _]%elem_delete. now apply Hr.
Qed.

Lemma entriesRemembered_step (st : Server) (e : Event) (o : Outcome) :
  wellFormed st -> entriesRemembered st -> step st e = Some o ->
  entriesRemembered (next o).
Proof.
  intros Hwf Hinv Hstep.
  assert (Hkind : (exists s p d, e = Register s p d) \/
                  (forall s p d, e <> Register s p d)).
  { destruct e; try (right; intros ? ? ?; discriminate). left. eauto. }
  destruct Hkind as [(s & pref & draws & ->)|Hne].
  - simpl in Hstep. unfold register in Hstep.
    destruct (liveRegistration s st) as [id|] eqn:Hlive.
    + injection Hstep as <-. exact Hinv.
    + destruct (chooseId (peers st) pref draws) as [id|] eqn:Hid; [|discriminate].
      injection Hstep as <-. unfold entriesRemembered. simpl. intros k p.
      rewrite set_fresh by (eapply chooseId_not_held, Hid).
      intros [Hin|Hin]%elem_of_app.
      * pose proof (Hinv k p Hin) as Hk.
        destruct (decide (socketId p = s)) as [Hs|Hs].
        -- exfalso. rewrite Hs in Hk.
           assert (Hgk : isGrouped k).
           { destruct Hwf as [_ Hks _]. rewrite Forall_forall in Hks.
             apply Hks, list_elem_of_fmap. now exists (k, p). }
           rewrite (liveRegistration_intro s st k (isGrouped_nonempty k Hgk) Hk) in Hlive;
             [discriminate|].
           apply has_true_keys, list_elem_of_fmap. now exists (k, p).
        -- rewrite lookup_insert_ne by congruence. exact Hk.
      * apply elem_of_cons in Hin as [Heq|Hin]; [|now apply elem_of_nil in Hin].
        injection Heq as -> ->. simpl. apply lookup_insert_eq.
  - destruct (entries_after_step st e o Hne Hstep) as [Hc Hfrom].
    intros k p' Hin. rewrite Hc.
    destruct (Hfrom k p' Hin) as (p & Hp & <-). exact (Hinv k p Hp).
Qed.

Lemma reachable_entriesRemembered (st : Server) :
  reachable st -> entriesRemembered st.
Proof.
  induction 1 as [|st e o Hst IH Hok Hstep].
  - intros k p H. now apply elem_of_nil in H.
  - eapply entriesRemembered_step; [|exact IH|exact Hstep].
    now apply reachable_wellFormed.
Qed.

(** X9. In every reachable state a socket holds at most one identifier: the
    socket of each entry remembers that entry's key as its [connectionId],
    so two entries with the same socket are the same entry. *)
Theorem one_entry_per_socket (st : Server) (k1 k2 : string) (p1 p2 : Peer) :
  reachable st ->
  (k1, p1) ∈ peers st -> (k2, p2) ∈ peers st -> socketId p1 = socketId p2 ->
  connectionIdOf st !! socketId p1 = Some k1 /\ k1 = k2 /\ p1 = p2.
Proof.
  intros Hst H1 H2 Hs.
  pose proof (reachable_entriesRemembered st Hst) as Hinv.
  pose proof (Hinv k1 p1 H1) as E1. pose proof (Hinv k2 p2 H2) as E2.
  rewrite <- Hs in E2. split; [exact E1|].
  assert (k1 = k2) as -> by congruence. split; [reflexivity|].
  pose proof (wf_nodup st (reachable_wellFormed st Hst)) as Hnd.
  pose proof (elem_get_NoDup _ _ _ Hnd H1). pose proof (elem_get_NoDup _ _ _ Hnd H2).
  congruence.
Qed.

Lemma one_entry_per_socket_witness :
  connectionIdOf (stateAfter pairedSession) !! "socket-V" = Some "222-333-444".
Proof.
  apply (one_entry_per_socket (stateAfter pairedSession) "222-333-444" "222-333-444"
           (mkPeer "socket-V" Busy (Some "123-456-789"))
           (mkPeer "socket-V" Busy (Some "123-456-789"))
           (stateAfter_reachable _ pairedSession_ok)
           ltac:(solve_elem) ltac:(solve_elem) ltac:(reflexivity)).
Defined.

(** ** Identifiers given back and identifiers drawn *)

Lemma adoptPreferred_grouped (ps : list (string * Peer)) (k : string) :
  isGrouped k -> JsMap.has ps k = false ->
  adoptPreferred ps (Some k) = Some k /\
  adoptPreferred ps (Some (stripHyphens k)) = Some k.
Proof.
  intros [Hl Hf] Hh. unfold adoptPreferred. split.
  - rewrite Hl, Hf, Hh. simpl.
    destruct (String.eqb_spec k "") as [->|_]; [discriminate Hl|reflexivity].
  - rewrite stripHyphens_idem, Hl, Hf, Hh. simpl.
    destruct (String.eqb_spec (stripHyphens k) "") as [E|_]; [|reflexivity].
    rewrite E in Hl. discriminate Hl.
Qed.

(** X10. An identifier of the registry's shape (nine hyphen-free characters
    in three groups, as every identifier the server hands out is) that no
    peer holds is adopted unchanged when a socket without a live
    registration sends it back as [preferredId], with its hyphens or
    without them. *)
Theorem released_id_is_adopted (st : Server) (socket k : string) (draws : list N) :
  isGrouped k ->
  liveRegistration socket st = None ->
  JsMap.has (peers st) k = false ->
  register socket (Some k) draws st = Some (registeredAs st socket k) /\
  register socket (Some (stripHyphens k)) draws st = Some (registeredAs st socket k).
Proof.
  intros Hg Hlive Hh. destruct (adoptPreferred_grouped (peers st) k Hg Hh) as [H1 H2].
  split; apply register_installs; try exact Hlive; unfold chooseId.
  - now rewrite H1.
  - now rewrite H2.
Qed.

Lemma released_id_is_adopted_witness :
  register "socket-W" (Some "987-654-321") [] (stateAfter twoRegistrations)
  = Some (registeredAs (stateAfter twoRegistrations) "socket-W" "987-654-321") /\
  register "socket-W" (Some "987654321") [] (stateAfter twoRegistrations)
  = Some (registeredAs (stateAfter twoRegistrations) "socket-W" "987-654-321").
Proof.
  apply (released_id_is_adopted (stateAfter twoRegistrations) "socket-W"
           "987-654-321" []).
  - split; reflexivity.
  - reflexivity.
  - reflexivity.
Defined.

Section DrawnDigits.
Local Open Scope N_scope.

Lemma digitChar_inj (a b : N) :
  a < 10 -> b < 10 -> digitChar a = digitChar b -> a = b.
Proof.
  intros Ha Hb E. apply (f_equal N_of_ascii) in E. unfold digitChar in E.
  rewrite !N_ascii_embedding in E by lia. lia.
Qed.

(** The nine digits a drawn number prints as. *)
Lemma toString_drawn (n : N) :
  drawInRange n ->
  toString n =
    String (digitChar (n / 10 / 10 / 10 / 10 / 10 / 10 / 10 / 10))
   (String (digitChar ((n / 10 / 10 / 10 / 10 / 10 / 10 / 10) mod 10))
   (String (digitChar ((n / 10 / 10 / 10 / 10 / 10 / 10) mod 10))
   (String (digitChar ((n / 10 / 10 / 10 / 10 / 10) mod 10))
   (String (digitChar ((n / 10 / 10 / 10 / 10) mod 10))
   (String (digitChar ((n / 10 / 10 / 10) mod 10))
   (String (digitChar ((n / 10 / 10) mod 10))
   (String (digitChar ((n / 10) mod 10))
   (String (digitChar (n mod 10)) EmptyString)))))))) /\
  n / 10 / 10 / 10 / 10 / 10 / 10 / 10 / 10 < 10.
Proof.
  intros [Hlo Hhi]. unfold toString.
  pose proof (log2_fuel n Hlo) as Hf.
  destruct (N.to_nat (N.log2 n)) as [|[|[|[|[|[|[|[|[|f]]]]]]]]]; try lia.
  clear Hf.
  assert (H1 := div10_bounds 10000000 100000000 n ltac:(lia)).
  assert (H2 := div10_bounds 1000000 10000000 _ H1).
  assert (H3 := div10_bounds 100000 1000000 _ H2).
  assert (H4 := div10_bounds 10000 100000 _ H3).
  assert (H5 := div10_bounds 1000 10000 _ H4).
  assert (H6 := div10_bounds 100 1000 _ H5).
  assert (H7 := div10_bounds 10 100 _ H6).
  assert (H8 := div10_bounds 1 10 _ H7).
  do 8 (rewrite digitsOf_more by lia).
  rewrite digitsOf_last by lia.
  split; [reflexivity|lia].
Qed.

Lemma toString_drawn_inj (n m : N) :
  drawInRange n -> drawInRange m -> toString n = toString m -> n = m.
Proof.
  intros Hn Hm E.
  destruct (toString_drawn n Hn) as [En Ln].
  destruct (toString_drawn m Hm) as [Em Lm].
  rewrite En, Em in E.
  injection E as E8 E7 E6 E5 E4 E3 E2 E1 E0.
  apply digitChar_inj in E8; [|assumption..].
  apply digitChar_inj in E7; [|apply N.mod_lt; lia..].
  apply digitChar_inj in E6; [|apply N.mod_lt; lia..].
  apply digitChar_inj in E5; [|apply N.mod_lt; lia..].
  apply digitChar_inj in E4; [|apply N.mod_lt; lia..].
  apply digitChar_inj in E3; [|apply N.mod_lt; lia..].
  apply digitChar_inj in E2; [|apply N.mod_lt; lia..].
  apply digitChar_inj in E1; [|apply N.mod_lt; lia..].
  apply digitChar_inj in E0; [|apply N.mod_lt; lia..].
  assert (Hstep : forall a b, a / 10 = b / 10 -> a mod 10 = b mod 10 -> a = b).
  { intros a b Hq Hr. rewrite (N.div_mod a 10), (N.div_mod b 10) by lia.
    now rewrite Hq, Hr. }
  repeat (apply Hstep; [|assumption]). exact E8.
Qed.

End DrawnDigits.

Lemma stripHyphens_generated (draw : N) :
  drawInRange draw -> stripHyphens (generateConnectionId draw) = toString draw.
Proof.
  intros Hd. destruct (toString_nine_digits draw Hd)
    as (c1 & c2 & c3 & c4 & c5 & c6 & c7 & c8 & c9 & E & Hdig).
  unfold generateConnectionId. apply stripHyphens_formatId.
  - rewrite E.
    repeat match goal with H : Forall _ (_ :: _) |- _ => inversion H; subst; clear H end.
    assert (Hh : forall c, isDigit c = true -> Ascii.eqb c "-" = false).
    { intros c Hc. destruct (Ascii.eqb_spec c "-") as [->|]; [discriminate Hc|reflexivity]. }
    simpl. rewrite !Hh by assumption. reflexivity.
  - now rewrite E.
Qed.

(** X11. Different drawn numbers give different identifiers: on the numbers
    [Math.random] can give, [generateConnectionId] is one-to-one, and
    removing the hyphens of the identifier gives back the decimal digits of
    the number. *)
Theorem generated_ids_distinct (d1 d2 : N) :
  drawInRange d1 -> drawInRange d2 ->
  stripHyphens (generateConnectionId d1) = toString d1 /\
  (generateConnectionId d1 = generateConnectionId d2 -> d1 = d2).
Proof.
  intros H1 H2. split; [now apply stripHyphens_generated|].
  intros E. apply toString_drawn_inj; [exact H1|exact H2|].
  rewrite <- (stripHyphens_generated d1 H1), <- (stripHyphens_generated d2 H2).
  now rewrite E.
Qed.

Lemma generated_ids_distinct_witness :
  stripHyphens (generateConnectionId 123456789) = toString 123456789 /\
  123456789%N = 123456789%N.
Proof.
  destruct (generated_ids_distinct 123456789 123456789) as [Hstrip Hinj];
    [unfold drawInRange; lia..|].
  split; [exact Hstrip|]. apply Hinj. reflexivity.
Defined.

(** ** Handlers one after the other *)

Lemma endSession_target_reset (st : Server) (socket targetId k : string) (q : Peer) :
  wellFormed st -> (k, q) ∈ peers st -> stripHyphens k = stripHyphens targetId ->
  JsMap.get (peers (next (endSession socket targetId st))) k
  = Some (mkPeer (socketId q) Available None).
Proof.
  intros Hwf Hin E.
  rewrite (endSession_found st socket targetId k q (findEntry_unique st _ k q Hwf Hin E)).
  pose proof (elem_get_NoDup _ _ _ (wf_nodup st Hwf) Hin) as Hg. simpl.
  destruct (connectionIdOf st !! socket) as [own|].
  - destruct (decide (own = k)) as [->|Hne].
    + now rewrite !get_adjust_eq, Hg.
    + rewrite get_adjust_ne by exact Hne. now rewrite get_adjust_eq, Hg.
  - now rewrite get_adjust_eq, Hg.
Qed.

(** X12. [end-session] frees its target: right after it, a
    [request-connection] for the same registered target, from any socket, is
    not refused; it is stored, the target's socket gets the
    connection-request and the caller gets the request id. *)
Theorem ended_target_accepts_requests (st : Server) (ender targetId k : string)
    (q : Peer) (socket : string) (viewerName password : option string) (uuid : string) :
  reachable st ->
  (k, q) ∈ peers st -> stripHyphens k = stripHyphens targetId ->
  let st' := next (endSession ender targetId st) in
  let o := requestConnection socket targetId viewerName password uuid st' in
  reply o = Some (Requested uuid) /\
  emitted o
  = [(socketId q,
      ConnectionRequestMsg uuid (connectionIdOf st !! socket)
        (orElse viewerName "Unknown") (if truthy password then password else None))] /\
  JsMap.get (pendingConnections (next o)) uuid
  = Some (mkRequest socket (connectionIdOf st !! socket) (socketId q) k).
Proof.
  intros Hst Hin E st' o.
  pose proof (reachable_wellFormed st Hst) as Hwf.
  assert (Hst' : reachable st').
  { exact (reachable_step st (EndSession ender targetId) (endSession ender targetId st)
             Hst I eq_refl). }
  pose proof (reachable_wellFormed st' Hst') as Hwf'.
  pose proof (endSession_target_reset st ender targetId k q Hwf Hin E) as Hg.
  assert (Hc : connectionIdOf st' = connectionIdOf st).
  { subst st'. unfold endSession.
    destruct (findEntry (peers st) targetId) as [[tk tp]|]; reflexivity. }
  subst o. unfold requestConnection.
  rewrite (findEntry_unique st' targetId k _ Hwf' (get_Some_elem _ _ _ Hg) E).
  simpl. rewrite Hc. split; [reflexivity|]. split; [reflexivity|].
  apply get_set_eq.
Qed.

Lemma ended_target_accepts_requests_witness :
  reply (requestConnection "socket-W" "123456789" None None "request-2"
           (next (endSession "socket-V" "123-456-789" (stateAfter pairedSession))))
  = Some (Requested "request-2").
Proof.
  apply (ended_target_accepts_requests (stateAfter pairedSession) "socket-V"
           "123-456-789" "123-456-789" (mkPeer "socket-H" Busy (Some "222-333-444"))
           "socket-W" None None "request-2"
           (stateAfter_reachable _ pairedSession_ok)
           ltac:(solve_elem) ltac:(reflexivity)).
Defined.

(** X13. A pending request does not reserve its target: while the target is
    available, a second [request-connection] with another request id is
    accepted as well, and afterwards both requests are pending and the
    registry is unchanged. *)
Theorem requests_accumulate (st : Server) (k : string) (q : Peer)
    (s1 s2 t1 t2 : string) (n1 p1 n2 p2 : option string) (r1 r2 : string) :
  reachable st ->
  (k, q) ∈ peers st -> status q = Available ->
  stripHyphens k = stripHyphens t1 -> stripHyphens k = stripHyphens t2 ->
  r1 <> r2 ->
  let o1 := requestConnection s1 t1 n1 p1 r1 st in
  let o2 := requestConnection s2 t2 n2 p2 r2 (next o1) in
  reply o1 = Some (Requested r1) /\ reply o2 = Some (Requested r2) /\
  peers (next o2) = peers st /\
  JsMap.get (pendingConnections (next o2)) r1
  = Some (mkRequest s1 (connectionIdOf st !! s1) (socketId q) k) /\
  JsMap.get (pendingConnections (next o2)) r2
  = Some (mkRequest s2 (connectionIdOf st !! s2) (socketId q) k).
Proof.
  intros Hst Hin Ha E1 E2 Hr o1 o2.
  pose proof (reachable_wellFormed st Hst) as Hwf.
  assert (Ho1 : o1 = {| next := withPending st
                                  (JsMap.set (pendingConnections st) r1
                                     (mkRequest s1 (connectionIdOf st !! s1) (socketId q) k));
                        emitted := [(socketId q,
                                     ConnectionRequestMsg r1 (connectionIdOf st !! s1)
                                       (orElse n1 "Unknown")
                                       (if truthy p1 then p1 else None))];
                        reply := Some (Requested r1) |}).
  { subst o1. unfold requestConnection.
    rewrite (findEntry_unique st t1 k q Hwf Hin E1). unfold isBusy. now rewrite Ha. }
  subst o2. rewrite Ho1. simpl. unfold requestConnection. simpl.
  rewrite (findEntry_unique st t2 k q Hwf Hin E2). unfold isBusy. rewrite Ha. simpl.
  split; [reflexivity|]. split; [reflexivity|]. split; [reflexivity|]. split.
  - rewrite get_set_ne by congruence. apply get_set_eq.
  - apply get_set_eq.
Qed.

Lemma requests_accumulate_witness :
  JsMap.get
    (pendingConnections
       (next (requestConnection "socket-W" "123-456-789" None None "request-2"
                (next (requestConnection "socket-V" "123456789" None None "request-1"
                         (stateAfter twoRegistrations))))))
    "request-1"
  = Some (mkRequest "socket-V" (Some "222-333-444") "socket-H" "123-456-789").
Proof.
  apply (requests_accumulate (stateAfter twoRegistrations) "123-456-789"
           (mkPeer "socket-H" Available None)
           "socket-V" "socket-W" "123456789" "123-456-789" None None None None
           "request-1" "request-2"
           (stateAfter_reachable _ twoRegistrations_ok)
           ltac:(solve_elem) ltac:(reflexivity) ltac:(reflexivity) ltac:(reflexivity)
           ltac:(discriminate)).
Defined.

(** ** The cache of ICE servers *)

Section IceFacts.
Import Ice.
Local Open Scope Z_scope.

Lemma getIceServers_keeps_stun now fetched fetchedAt c :
  startsWithStun (cachedIceServers c) ->
  startsWithStun (cachedIceServers (getIceServers now fetched fetchedAt c).1) /\
  (getIceServers now fetched fetchedAt c).2
  = cachedIceServers (getIceServers now fetched fetchedAt c).1.
Proof.
  intros Hc. unfold getIceServers, refreshIceServers.
  destruct (now - lastIceRefresh c >? ICE_REFRESH_INTERVAL); [|auto].
  destruct fetched as [turnServers|]; simpl; [|auto].
  split; [now exists turnServers|reflexivity].
Qed.

(** X14. Whatever the credential provider answers and whenever it fails,
    every list [getIceServers] returns, over any sequence of calls from
    startup, begins with the two STUN servers. *)
Theorem served_lists_start_with_stun
    (calls : list (Z * option (list IceServer) * Z)) (answer : list IceServer) :
  answer ∈ (serve calls atStartup).2 -> startsWithStun answer.
Proof.
  assert (Hgen : forall c, startsWithStun (cachedIceServers c) ->
                   answer ∈ (serve calls c).2 -> startsWithStun answer).
  { induction calls as [|[[now fetched] fetchedAt] calls IH]; intros c Hc; simpl.
    - intros H. now apply elem_of_nil in H.
    - destruct (getIceServers_keeps_stun now fetched fetchedAt c Hc) as [Hc1 Ha].
      destruct (getIceServers now fetched fetchedAt c) as [c1 a1]. simpl in Hc1, Ha.
      specialize (IH c1 Hc1). destruct (serve calls c1) as [c2 answers]. simpl in *.
      intros [->|Hin]%elem_of_cons; [now rewrite Ha|now apply IH]. }
  apply Hgen. now exists [].
Qed.

Lemma served_lists_start_with_stun_witness :
  startsWithStun
    (stunServers ++ [mkIceServer "turn:relay.example:443" (Some "u") (Some "c")])%list.
Proof.
  apply (served_lists_start_with_stun
           [(1000000000, None, 1000000001);
            (1000000500,
             Some [mkIceServer "turn:relay.example:443" (Some "u") (Some "c")],
             1000000600)]).
  vm_compute. right. left.
Defined.

End IceFacts.

(** ** The first version's disconnect *)

(** X17. The grace-period task, when it finds the entry of the captured
    socket, does exactly the cleanup that the first version of the server
    ([server.js]) ran at once in its disconnect handler: same registry, same
    pending requests, same messages in the same order. *)
Theorem grace_task_is_first_version_cleanup (st : Server) (socket id : string) :
  connectionIdOf st !! socket = Some id ->
  id <> "" ->
  ownedBy (peers st) id socket ->
  graceTask socket id st = V1.disconnect socket st.
Proof.
  intros Hc Hne (peer & Hg & Hs). unfold graceTask, V1.disconnect.
  rewrite Hc, Hg, Hs, eqb_refl_str. simpl.
  destruct (String.eqb_spec id "") as [E|_]; [now contradiction Hne|].
  reflexivity.
Qed.

Lemma grace_task_is_first_version_cleanup_witness :
  graceTask "socket-H" "123-456-789" (stateAfter hostDrops)
  = V1.disconnect "socket-H" (stateAfter hostDrops).
Proof.
  apply (grace_task_is_first_version_cleanup (stateAfter hostDrops)
           "socket-H" "123-456-789").
  - vm_compute. reflexivity.
  - discriminate.
  - exists (mkPeer "socket-H" Busy (Some "222-333-444")). split; reflexivity.
Defined.

(** ** The peer count of the status endpoint *)

Lemma length_adjust (f : Peer -> Peer) (ps : list (string * Peer)) (k : string) :
  length (JsMap.adjust f ps k) = length ps.
Proof.
  induction ps as [|[k0 p0] ps IH]; simpl; [reflexivity|].
  destruct (String.eqb k0 k); simpl; [reflexivity|now rewrite IH].
Qed.

Lemma delete_absent (ps : list (string * Peer)) (k : string) :
  k ∉ JsMap.keys ps -> JsMap.delete ps k = ps.
Proof.
  unfold JsMap.keys. induction ps as [|[k0 p0] ps IH]; simpl; [reflexivity|].
  rewrite not_elem_of_cons. intros [Hne Hin].
  rewrite (proj2 (String.eqb_neq k0 k)) by congruence. now rewrite IH.
Qed.

Lemma length_delete (ps : list (string * Peer)) (k : string) (p : Peer) :
  NoDup (JsMap.keys ps) -> JsMap.get ps k = Some p ->
  S (length (JsMap.delete ps k)) = length ps.
Proof.
  unfold JsMap.keys. induction ps as [|[k0 p0] ps IH]; simpl; [discriminate|].
  rewrite NoDup_cons. intros [Hk Hnd].
  destruct (String.eqb_spec k0 k) as [->|Hne].
  - intros _. now rewrite (delete_absent ps k Hk).
  - intros Hg. simpl. now rewrite (IH Hnd Hg).
Qed.

(** X18. The peer count the status endpoint reports changes with the
    registry one entry at a time. Over any event of a reachable state it
    grows by one exactly when a socket without a live registration
    registers, falls by one exactly when a timer fires on the entry of its
    captured socket, and is otherwise the same. *)
Theorem peer_count_steps (uptime : Z) (st : Server) (e : Event) (o : Outcome) :
  reachable st -> step st e = Some o ->
  Health.peers (Health.report uptime (next o))
  = match e with
    | Register socket _ _ =>
        match liveRegistration socket st with
        | Some _ => Health.peers (Health.report uptime st)
        | None => S (Health.peers (Health.report uptime st))
        end
    | GraceElapsed disconnectedId socket =>
        match JsMap.get (peers st) disconnectedId with
        | Some peer =>
            if String.eqb (socketId peer) socket
            then Nat.pred (Health.peers (Health.report uptime st))
            else Health.peers (Health.report uptime st)
        | None => Health.peers (Health.report uptime st)
        end
    | _ => Health.peers (Health.report uptime st)
    end.
Proof.
  intros Hst Hstep. pose proof (reachable_wellFormed st Hst) as Hwf.
  unfold Health.report, registryOf. simpl.
  destruct e; simpl in Hstep.
  - unfold register in Hstep. destruct (liveRegistration socket st) as [id|].
    + now injection Hstep as <-.
    + destruct (chooseId (peers st) preferredId draws) as [id|] eqn:Hid; [|discriminate].
      injection Hstep as <-. simpl.
      rewrite set_fresh by (eapply chooseId_not_held, Hid).
      rewrite length_app. simpl. lia.
  - injection Hstep as <-. unfold requestConnection.
    destruct (findEntry (peers st) targetId) as [[tk tp]|]; [|reflexivity].
    destruct (isBusy tp); reflexivity.
  - injection Hstep as <-. unfold connectionResponse.
    destruct (JsMap.get (pendingConnections st) requestId) as [rq|]; [|reflexivity].
    destruct (findBySocketId (peers st) (viewerSocketId rq)); [|reflexivity].
    destruct accepted; [|reflexivity]. simpl.
    destruct (viewerConnectionId rq); now rewrite !length_adjust.
  - injection Hstep as <-. unfold relay.
    destruct (findPeerByConnectionId (peers st) targetId); reflexivity.
  - injection Hstep as <-. unfold endSession.
    destruct (findEntry (peers st) targetId) as [[tk tp]|];
      destruct (connectionIdOf st !! socket); simpl; now rewrite ?length_adjust.
  - injection Hstep as <-. unfold disconnect.
    destruct (connectionIdOf st !! socket) as [c|]; [|reflexivity].
    destruct (truthy (Some c)); reflexivity.
  - destruct (takeTimer_fires _ _ _ _ Hstep) as [timers ->].
    unfold graceTask. simpl.
    destruct (JsMap.get (peers st) disconnectedId) as [peer|] eqn:Hg; [|reflexivity].
    destruct (String.eqb (socketId peer) socket); [|reflexivity]. simpl.
    set (r := if truthy (connectedTo peer) then _ else _).
    assert (Hr : JsMap.keys r.1 = JsMap.keys (peers st) /\
                 length r.1 = length (peers st) /\
                 is_Some (JsMap.get r.1 disconnectedId)).
    { subst r. destruct (truthy (connectedTo peer)); [|simpl; eauto].
      destruct (connectedTo peer); [|simpl; eauto].
      destruct (findEntry (peers st) s) as [[ok op]|]; [|simpl; eauto].
      simpl. split; [apply keys_adjust|]. split; [apply length_adjust|].
      destruct (decide (ok = disconnectedId)) as [->|Hne].
      - rewrite get_adjust_eq, Hg. eauto.
      - rewrite get_adjust_ne by exact Hne. eauto. }
    destruct r as [ps1 out1]. simpl in Hr. destruct Hr as (Hk & Hl & [p1 Hp1]).
    destruct (reapRequests ps1 disconnectedId (pendingConnections st)). simpl.
    assert (Hnd : NoDup (JsMap.keys ps1)) by (rewrite Hk; apply (wf_nodup st Hwf)).
    pose proof (length_delete ps1 disconnectedId p1 Hnd Hp1). lia.
Qed.

Lemma peer_count_steps_witness :
  Health.peers
    (Health.report 42
       (next (outcomeOf (stateAfter hostDrops) (GraceElapsed "123-456-789" "socket-H"))))
  = 2.
Proof.
  rewrite (peer_count_steps 42 (stateAfter hostDrops)
             (GraceElapsed "123-456-789" "socket-H")
             (outcomeOf (stateAfter hostDrops) (GraceElapsed "123-456-789" "socket-H"))
             (stateAfter_reachable _ hostDrops_ok)
             ltac:(vm_compute; reflexivity)).
  reflexivity.
Defined.

(** ** The layout of registered identifiers *)

Lemma isGrouped_layout (k : string) :
  isGrouped k ->
  String.length k = 11 /\
  String.get 3 k = Some "-"%char /\ String.get 7 k = Some "-"%char /\
  String.length (stripHyphens k) = 9.
Proof.
  intros [Hl Hf]. split; [|split; [|split]]; try exact Hl; rewrite <- Hf;
    destruct (stripHyphens k) as [|c1 [|c2 [|c3 [|c4 [|c5 [|c6 [|c7 [|c8 [|c9 [|c10 r]]]]]]]]]];
    try discriminate Hl; reflexivity.
Qed.

(** X19. Every identifier in the registry of a reachable state, generated or
    adopted from a preferred id, has the xxx-xxx-xxx layout: eleven
    characters with a hyphen in fourth and in eighth place and no other
    hyphen. *)
Theorem registered_ids_layout (st : Server) (k : string) (p : Peer) :
  reachable st -> (k, p) ∈ peers st ->
  String.length k = 11 /\
  String.get 3 k = Some "-"%char /\ String.get 7 k = Some "-"%char /\
  String.length (stripHyphens k) = 9.
Proof.
  intros Hst Hin. apply isGrouped_layout.
  pose proof (wf_keys st (reachable_wellFormed st Hst)) as Hk.
  rewrite Forall_forall in Hk. apply Hk, list_elem_of_fmap. now exists (k, p).
Qed.

Lemma registered_ids_layout_witness :
  String.length "abc-def-ghi" = 11 /\
  String.get 3 "abc-def-ghi" = Some "-"%char /\
  String.get 7 "abc-def-ghi" = Some "-"%char /\
  String.length (stripHyphens "abc-def-ghi") = 9.
Proof.
  apply (registered_ids_layout
           (stateAfter [Register "socket-H" (Some "abcdefghi") []])
           "abc-def-ghi" (mkPeer "socket-H" Available None)).
  - apply stateAfter_reachable. solve_eventOk.
  - solve_elem.
Defined.

(** ** Registering and looking up *)

(** X20. What [register] answers can be looked up. In a reachable state,
    after a [register] that returns, the identifier in the answer is the
    socket's [connectionId] and a key of the registry, and
    [findPeerByConnectionId] finds the entry stored under it, whether it is
    asked with the hyphens or without them. *)
Theorem registered_id_is_found (st : Server) (socket : string)
    (preferredId : option string) (draws : list N) (o : Outcome) :
  reachable st -> Forall drawInRange draws ->
  register socket preferredId draws st = Some o ->
  exists id p,
    reply o = Some (Registered id) /\
    connectionIdOf (next o) !! socket = Some id /\
    JsMap.get (peers (next o)) id = Some p /\
    findPeerByConnectionId (peers (next o)) id = Some p /\
    findPeerByConnectionId (peers (next o)) (stripHyphens id) = Some p.
Proof.
  intros Hst Hd Hreg.
  assert (Hst' : reachable (next o)).
  { exact (reachable_step st (Register socket preferredId draws) o Hst Hd Hreg). }
  pose proof (reachable_wellFormed _ Hst') as Hwf.
  assert (Hcore : exists id p, reply o = Some (Registered id) /\
                    connectionIdOf (next o) !! socket = Some id /\
                    JsMap.get (peers (next o)) id = Some p).
  { unfold register in Hreg.
    destruct (liveRegistration socket st) as [id|] eqn:Hlive.
    - injection Hreg as <-. simpl.
      apply liveRegistration_Some in Hlive as [Hc Hh].
      unfold JsMap.has in Hh. destruct (JsMap.get (peers st) id) as [p|] eqn:Hg;
        [|discriminate]. now exists id, p.
    - destruct (chooseId (peers st) preferredId draws) as [id|]; [|discriminate].
      injection Hreg as <-. simpl. exists id, (mkPeer socket Available None).
      split; [reflexivity|]. split; [apply lookup_insert_eq|apply get_set_eq]. }
  destruct Hcore as (id & p & Hr & Hc & Hg). exists id, p.
  split; [exact Hr|]. split; [exact Hc|]. split; [exact Hg|].
  unfold findPeerByConnectionId.
  rewrite (findEntry_unique (next o) id id p Hwf (get_Some_elem _ _ _ Hg) eq_refl).
  rewrite (findEntry_unique (next o) (stripHyphens id) id p Hwf (get_Some_elem _ _ _ Hg)
             (eq_sym (stripHyphens_idem id))).
  split; reflexivity.
Qed.

Lemma registered_id_is_found_witness :
  exists id p,
    reply (outcomeOf (stateAfter twoRegistrations)
             (Register "socket-W" None [222333444%N; 444555666%N]))
    = Some (Registered id) /\
    connectionIdOf
      (next (outcomeOf (stateAfter twoRegistrations)
               (Register "socket-W" None [222333444%N; 444555666%N]))) !! "socket-W"
    = Some id /\
    JsMap.get
      (peers (next (outcomeOf (stateAfter twoRegistrations)
                      (Register "socket-W" None [222333444%N; 444555666%N])))) id
    = Some p /\
    findPeerByConnectionId
      (peers (next (outcomeOf (stateAfter twoRegistrations)
                      (Register "socket-W" None [222333444%N; 444555666%N])))) id
    = Some p /\
    findPeerByConnectionId
      (peers (next (outcomeOf (stateAfter twoRegistrations)
                      (Register "socket-W" None [222333444%N; 444555666%N]))))
      (stripHyphens id)
    = Some p.
Proof.
  apply (registered_id_is_found (stateAfter twoRegistrations) "socket-W" None
           [222333444%N; 444555666%N]).
  - apply stateAfter_reachable, twoRegistrations_ok.
  - solve_eventOk.
  - vm_compute. reflexivity.
Defined.

(** X21. An identifier is free again once the grace-period task has
    reclaimed it: when the task fires on the entry of its captured socket in
    a reachable state, a socket without a live registration that then asks
    for that identifier as [preferredId] gets it. *)
Theorem reclaimed_id_can_be_taken (st : Server) (disconnectedId socket : string)
    (peer : Peer) (o : Outcome) (newSocket : string) (draws : list N) :
  reachable st ->
  step st (GraceElapsed disconnectedId socket) = Some o ->
  JsMap.get (peers st) disconnectedId = Some peer -> socketId peer = socket ->
  liveRegistration newSocket (next o) = None ->
  register newSocket (Some disconnectedId) draws (next o)
  = Some (registeredAs (next o) newSocket disconnectedId).
Proof.
  intros Hst Hstep Hg Hs Hlive.
  assert (Hgrouped : isGrouped disconnectedId).
  { pose proof (wf_keys st (reachable_wellFormed st Hst)) as Hk.
    rewrite Forall_forall in Hk. apply Hk, list_elem_of_fmap.
    exists (disconnectedId, peer). split; [reflexivity|]. now apply get_Some_elem. }
  assert (Hfree : JsMap.has (peers (next o)) disconnectedId = false).
  { apply has_false_get.
    destruct (takeTimer_fires _ _ _ _ Hstep) as [timers ->].
    destruct (graceTask_reclaim
                {| peers := peers st; pendingConnections := pendingConnections st;
                   connectionIdOf := connectionIdOf st; graceTimers := timers |}
                socket disconnectedId peer Hg Hs) as (ps1 & out1 & _ & ->).
    simpl. apply get_delete_eq. }
  apply register_installs; [exact Hlive|]. unfold chooseId.
  now rewrite (proj1 (adoptPreferred_grouped _ _ Hgrouped Hfree)).
Qed.

Lemma reclaimed_id_can_be_taken_witness :
  register "socket-H2" (Some "123-456-789") []
    (next (outcomeOf (stateAfter hostDrops) (GraceElapsed "123-456-789" "socket-H")))
  = Some (registeredAs
            (next (outcomeOf (stateAfter hostDrops)
                     (GraceElapsed "123-456-789" "socket-H")))
            "socket-H2" "123-456-789").
Proof.
  apply (reclaimed_id_can_be_taken (stateAfter hostDrops) "123-456-789" "socket-H"
           (mkPeer "socket-H" Busy (Some "222-333-444"))
           (outcomeOf (stateAfter hostDrops) (GraceElapsed "123-456-789" "socket-H"))
           "socket-H2" []
           (stateAfter_reachable _ hostDrops_ok)).
  - vm_compute. reflexivity.
  - vm_compute. reflexivity.
  - reflexivity.
  - vm_compute. reflexivity.
Defined.

(** ** A disconnect before its timer fires *)

Lemma handlers_ignore_timers (a b : Server) (e : Event) (oa : Outcome) :
  sameButTimers a b ->
  (forall k s, e <> GraceElapsed k s) ->
  step a e = Some oa ->
  exists ob, step b e = Some ob /\ emitted ob = emitted oa /\ reply ob = reply oa /\
             sameButTimers (next ob) (next oa).
Proof.
  destruct a as [pa qa ca ta], b as [pb qb cb tb]. unfold sameButTimers. simpl.
  intros (-> & -> & ->) Hne Hstep. destruct e; simpl in Hstep |- *.
  - unfold register, liveRegistration in *.
    cbn [peers pendingConnections connectionIdOf graceTimers] in *.
    destruct (cb !! socket) as [id|].
    + destruct (truthy (Some id) && JsMap.has pb id).
      * injection Hstep as <-. eexists. split; [reflexivity|]. simpl. repeat split; reflexivity.
      * destruct (chooseId pb preferredId draws) as [cid|]; [|discriminate].
        injection Hstep as <-. eexists. split; [reflexivity|]. simpl. repeat split; reflexivity.
    + destruct (chooseId pb preferredId draws) as [cid|]; [|discriminate].
      injection Hstep as <-. eexists. split; [reflexivity|]. simpl. repeat split; reflexivity.
  - injection Hstep as <-. eexists. split; [reflexivity|].
    unfold requestConnection. simpl.
    destruct (findEntry pb targetId) as [[tk tp]|]; [|simpl; repeat split; reflexivity].
    destruct (isBusy tp); simpl; repeat split; reflexivity.
  - injection Hstep as <-. eexists. split; [reflexivity|].
    unfold connectionResponse. simpl.
    destruct (JsMap.get qb requestId) as [rq|]; [|simpl; repeat split; reflexivity].
    destruct (findBySocketId pb (viewerSocketId rq)); [|simpl; repeat split; reflexivity].
    destruct accepted; simpl; repeat split; reflexivity.
  - injection Hstep as <-. eexists. split; [reflexivity|].
    unfold relay. simpl.
    destruct (findPeerByConnectionId pb targetId); simpl; repeat split; reflexivity.
  - injection Hstep as <-. eexists. split; [reflexivity|].
    unfold endSession. simpl.
    destruct (findEntry pb targetId) as [[tk tp]|]; simpl; repeat split; reflexivity.
  - injection Hstep as <-. eexists. split; [reflexivity|].
    unfold disconnect. cbn [peers pendingConnections connectionIdOf graceTimers].
    destruct (cb !! socket) as [c|]; [|simpl; repeat split; reflexivity].
    destruct (truthy (Some c)); simpl; repeat split; reflexivity.
  - now contradiction (Hne disconnectedId socket).
Qed.

Lemma disconnect_sameButTimers (socket : string) (st : Server) :
  sameButTimers st (next (disconnect socket st)) /\
  emitted (disconnect socket st) = [] /\ reply (disconnect socket st) = None.
Proof.
  unfold disconnect, sameButTimers.
  destruct (connectionIdOf st !! socket) as [c|]; [|simpl; auto].
  destruct (truthy (Some c)); simpl; auto.
Qed.

(** X22. A disconnect shows nothing until its timer fires. The disconnect
    handler sends nothing and leaves the registry, the pending requests and
    the sockets' identifiers as they are, so every handler that runs
    afterwards emits and answers exactly as it would have without the
    disconnect, and the disconnected peer can still be looked up, asked for
    and paired. *)
Theorem disconnect_is_invisible (st : Server) (socket : string) (e : Event)
    (o : Outcome) :
  (forall k s, e <> GraceElapsed k s) ->
  step st e = Some o ->
  emitted (disconnect socket st) = [] /\
  exists o', step (next (disconnect socket st)) e = Some o' /\
             emitted o' = emitted o /\ reply o' = reply o /\
             peers (next o') = peers (next o) /\
             pendingConnections (next o') = pendingConnections (next o) /\
             connectionIdOf (next o') = connectionIdOf (next o).
Proof.
  intros Hne Hstep.
  destruct (disconnect_sameButTimers socket st) as (Hsame & Hout & _).
  split; [exact Hout|].
  destruct (handlers_ignore_timers st (next (disconnect socket st)) e o Hsame Hne Hstep)
    as (o' & Hs & He & Hr & Hp & Hq & Hc).
  exists o'. repeat split; assumption.
Qed.

Lemma disconnect_is_invisible_witness :
  exists o',
    step (next (disconnect "socket-H" (stateAfter twoRegistrations)))
      (RequestConnection "socket-V" "123456789" None None "request-1") = Some o' /\
    emitted o' = [("socket-H",
                   ConnectionRequestMsg "request-1" (Some "222-333-444") "Unknown" None)] /\
    reply o' = Some (Requested "request-1").
Proof.
  destruct (disconnect_is_invisible (stateAfter twoRegistrations) "socket-H"
              (RequestConnection "socket-V" "123456789" None None "request-1")
              (outcomeOf (stateAfter twoRegistrations)
                 (RequestConnection "socket-V" "123456789" None None "request-1"))
              ltac:(intros ? ?; discriminate) ltac:(reflexivity))
    as (_ & o' & Hs & He & Hr & _).
  exists o'. split; [exact Hs|]. split; [exact He|exact Hr].
Defined.

(** ** Who may answer a request *)

(** The host entry after an accepted response. *)
Lemma accept_host_entry (st : Server) (requestId : string) (request : Request)
    (viewerPeer host : Peer) :
  JsMap.get (pendingConnections st) requestId = Some request ->
  findBySocketId (peers st) (viewerSocketId request) = Some viewerPeer ->
  JsMap.get (peers st) (hostConnectionId request) = Some host ->
  JsMap.get (peers (next (connectionResponse requestId true st)))
    (hostConnectionId request)
  = Some (mkPeer (socketId host) Busy (viewerConnectionId request)).
Proof.
  intros Hr Hf Hh. unfold connectionResponse. rewrite Hr, Hf. simpl.
  destruct (viewerConnectionId request) as [v|] eqn:Hv.
  - destruct (decide (v = hostConnectionId request)) as [->|Hne].
    + rewrite !get_adjust_eq, Hh. reflexivity.
    + rewrite get_adjust_ne by exact Hne. now rewrite get_adjust_eq, Hh.
  - now rewrite get_adjust_eq, Hh.
Qed.

Lemma response_deletes_request (st : Server) (requestId : string) (accepted : bool) :
  JsMap.get (pendingConnections (next (connectionResponse requestId accepted st)))
    requestId = None.
Proof.
  unfold connectionResponse.
  destruct (JsMap.get (pendingConnections st) requestId) as [request|] eqn:Hr;
    [|exact Hr].
  destruct (findBySocketId (peers st) (viewerSocketId request));
    [destruct accepted|]; simpl; apply get_delete_eq.
Qed.

(** C10. The effect of [connection-response] does not depend on the socket
    that sends it. For a pending request in a reachable state, a response
    from any socket runs, and it has the outcome the same response from the
    request's host socket has: the request is deleted; when the viewer's
    socket belongs to a registered peer, an acceptance notifies the viewer,
    makes the recorded host busy with [connectedTo] the recorded viewer
    identifier and makes the recorded viewer, if registered, busy with
    [connectedTo] the host, and a rejection notifies the viewer and leaves
    the registry as it is; when the viewer's socket belongs to no registered
    peer nothing is sent and the registry stays as it is. No hypothesis ties
    the sender to the request. *)
Theorem response_ignores_sender (st : Server) (requestId : string) (request : Request)
    (sender : string) (accepted : bool) :
  reachable st ->
  JsMap.get (pendingConnections st) requestId = Some request ->
  exists o,
    step st (ConnectionResponse sender requestId accepted) = Some o /\
    step st (ConnectionResponse (hostSocketId request) requestId accepted) = Some o /\
    JsMap.get (pendingConnections (next o)) requestId = None /\
    (forall k viewerPeer,
       (k, viewerPeer) ∈ peers st -> socketId viewerPeer = viewerSocketId request ->
       (accepted = true ->
        emitted o
        = [(viewerSocketId request, ConnectionAccepted (hostConnectionId request))] /\
        JsMap.get (peers (next o)) (hostConnectionId request)
        = Some (mkPeer (hostSocketId request) Busy (viewerConnectionId request)) /\
        (forall v viewerEntry,
           viewerConnectionId request = Some v ->
           JsMap.get (peers st) v = Some viewerEntry ->
           JsMap.get (peers (next o)) v
           = Some (mkPeer (socketId viewerEntry) Busy (Some (hostConnectionId request)))))
       /\
       (accepted = false ->
        emitted o
        = [(viewerSocketId request, ConnectionRejected (hostConnectionId request))] /\
        peers (next o) = peers st))
    /\
    ((forall k p, (k, p) ∈ peers st -> socketId p <> viewerSocketId request) ->
     emitted o = [] /\ peers (next o) = peers st).
Proof.
  intros Hst Hr. exists (connectionResponse requestId accepted st).
  split; [reflexivity|]. split; [reflexivity|].
  split; [apply response_deletes_request|].
  destruct (reachable_pendingHostsRegistered st Hst requestId request
              (get_Some_elem _ _ _ Hr)) as (host & Hh & Hhs).
  split.
  - intros k viewerPeer Hin Hs.
    destruct (findBySocketId (peers st) (viewerSocketId request)) as [vp|] eqn:Hf.
    2:{ exfalso. exact (proj1 (findBySocketId_None _ _) Hf k viewerPeer Hin Hs). }
    destruct (findBySocketId_Some _ _ _ Hf) as [Hvp _].
    split; intros ->.
    + split; [|split].
      * unfold connectionResponse. rewrite Hr, Hf. simpl. now rewrite Hvp.
      * rewrite <- Hhs. exact (accept_host_entry st requestId request vp host Hr Hf Hh).
      * intros v viewerEntry Hv Hve.
        exact (proj2 (accept_pairs_recorded st requestId request vp host viewerEntry v
                        Hr Hf Hv Hh Hve)).
    + unfold connectionResponse. rewrite Hr, Hf. simpl. now rewrite Hvp.
  - intros Hnone. apply findBySocketId_None in Hnone.
    unfold connectionResponse. rewrite Hr, Hnone. simpl. split; reflexivity.
Qed.

Lemma response_ignores_sender_witness :
  exists o,
    step (stateAfter requestPending) (ConnectionResponse "socket-X" "request-1" true)
    = Some o /\
    step (stateAfter requestPending) (ConnectionResponse "socket-H" "request-1" true)
    = Some o /\
    JsMap.get (pendingConnections (next o)) "request-1" = None /\
    emitted o = [("socket-V", ConnectionAccepted "123-456-789")] /\
    JsMap.get (peers (next o)) "123-456-789"
    = Some (mkPeer "socket-H" Busy (Some "222-333-444")) /\
    JsMap.get (peers (next o)) "222-333-444"
    = Some (mkPeer "socket-V" Busy (Some "123-456-789")).
Proof.
  destruct (response_ignores_sender (stateAfter requestPending) "request-1"
              (mkRequest "socket-V" (Some "222-333-444") "socket-H" "123-456-789")
              "socket-X" true
              (stateAfter_reachable _ requestPending_ok) ltac:(reflexivity))
    as (o & Hany & Hhost & Hgone & Hreg & _).
  destruct (Hreg "222-333-444" (mkPeer "socket-V" Available None)
              ltac:(solve_elem) ltac:(reflexivity)) as [Hacc _].
  destruct (Hacc eq_refl) as (Hout & Hh & Hv).
  exists o. split; [exact Hany|]. split; [exact Hhost|]. split; [exact Hgone|].
  split; [exact Hout|]. split; [exact Hh|].
  exact (Hv "222-333-444" (mkPeer "socket-V" Available None) eq_refl eq_refl).
Defined.
